(** * Tridiagonal solver of [material/grad_jit_example.ipynb]

    A shallow embedding of [tridiag_solve] (the Thomas algorithm written as
    two [jax.lax.scan] passes) and of [scal_fun], the scalar workload built
    on top of it.

    One-dimensional arrays are lists; the two-dimensional arrays produced by
    [jnp.stack] are lists of rows.  Operations of the array library that can
    raise (indexing an empty array, stacking arrays of different shapes,
    unpacking a row of the wrong width, integer division by zero) return in
    an error monad.  The scalar type is a parameter: the same definition of
    the solver is read over the exact reals and over a model of the special
    values of floating point. *)

From Stdlib Require Import List Arith PeanoNat Lia Reals Lra.
Import ListNotations.

(** ** Errors *)

Inductive error : Type :=
| IndexError
| ValueError
| ZeroDivisionError.

Inductive result (A : Type) : Type :=
| Ok (a : A)
| Raise (e : error).

Arguments Ok {A} a.
Arguments Raise {A} e.

Definition bind {A B : Type} (m : result A) (k : A -> result B) : result B :=
  match m with
  | Ok a => k a
  | Raise e => Raise e
  end.

Declare Scope result_scope.
Delimit Scope result_scope with result.
Notation "x <- m ;; k" := (bind m (fun x => k))
  (at level 100, m at next level, right associativity) : result_scope.
Notation "' p <- m ;; k" := (bind m (fun x => let p := x in k))
  (at level 100, p pattern, m at next level, right associativity) : result_scope.
Open Scope result_scope.

(** ** Scalars

    The arithmetic the solver uses: the literal [1.], [+], [-], [*], [/] and
    unary minus. *)

Class Scalar (T : Type) : Type := {
  one : T;
  add : T -> T -> T;
  sub : T -> T -> T;
  mul : T -> T -> T;
  div : T -> T -> T;
  neg : T -> T
}.

(** ** Array operations *)

Section Arrays.
Context {A : Type}.

(** [x[0]] *)
Definition getitem_first (x : list A) : result A :=
  match x with
  | [] => Raise IndexError
  | v :: _ => Ok v
  end.

(** [x[-1]] *)
Definition getitem_last (x : list A) : result A :=
  getitem_first (rev x).

(** [jnp.stack(rows)]: every array must have the shape of the first. *)
Definition stack (rows : list (list A)) : result (list (list A)) :=
  match rows with
  | [] => Raise ValueError
  | r :: rs =>
      if forallb (fun r' => length r' =? length r) rs
      then Ok rows
      else Raise ValueError
  end.

(** [m[:, 1:]] *)
Definition drop_first_column (m : list (list A)) : list (list A) :=
  map (@tl A) m.

Fixpoint zip_cons (r : list A) (m : list (list A)) : list (list A) :=
  match r, m with
  | v :: r', col :: m' => (v :: col) :: zip_cons r' m'
  | _, _ => []
  end.

(** [m.T] *)
Fixpoint transpose (m : list (list A)) : list (list A) :=
  match m with
  | [] => []
  | r :: rs =>
      match rs with
      | [] => map (fun v => [v]) r
      | _ :: _ => zip_cons r (transpose rs)
      end
  end.

(** [jnp.tile(x, reps)] *)
Definition tile (x : list A) (reps : nat) : list A :=
  concat (repeat x reps).

(** [jnp.roll(x, shift)] *)
Definition roll (x : list A) (shift : nat) : list A :=
  let d := length x in
  if d =? 0 then x
  else
    let s := shift mod d in
    skipn (d - s) x ++ firstn (d - s) x.
End Arrays.

(** [jax.lax.scan(f, init, xs)]: thread the carry through the rows of [xs]
    and collect what each step emits. *)
Fixpoint scan {C X Y : Type} (f : C -> X -> result (C * Y)) (init : C)
    (xs : list X) : result (C * list Y) :=
  match xs with
  | [] => Ok (init, [])
  | x :: xs' =>
      '(carry, y) <- f init x ;;
      '(final, ys) <- scan f carry xs' ;;
      Ok (final, y :: ys)
  end.

(** ** The solver *)

Section Solver.
Context {T : Type} `{Scalar T}.

Definition forward_scan_scal (carry : T * T) (x : list T)
    : result ((T * T) * (T * T)) :=
  let '(f_im1, q_im1) := carry in
  match x with
  | [a; b; c; f] =>
      let cff := div one (add b (mul a q_im1)) in
      let f_i := mul cff (sub f (mul a f_im1)) in
      let q_i := mul (neg cff) c in
      let carry := (f_i, q_i) in
      Ok (carry, carry)
  | _ => Raise ValueError
  end.

Definition reverse_scan_scal (carry : T) (x : list T) : result (T * T) :=
  match x with
  | [q_rev; f_rev] =>
      let carry := add f_rev (mul q_rev carry) in
      Ok (carry, carry)
  | _ => Raise ValueError
  end.

(** First half of [tridiag_solve]: the seed, the forward scan and the two
    concatenations that give the sequences [f] and [q]. *)
Definition forward_pass (a b c f : list T) : result (list T * list T) :=
  f0 <- getitem_first f ;;
  b0 <- getitem_first b ;;
  c0 <- getitem_first c ;;
  let init := (div f0 b0, div (neg c0) b0) in
  m <- stack [a; b; c; f] ;;
  let xs := transpose (drop_first_column m) in
  '(_, ys) <- scan forward_scan_scal init xs ;;
  let f := [fst init] ++ map fst ys in
  let q := [snd init] ++ map snd ys in
  Ok (f, q).

(** Second half of [tridiag_solve]: the reversed scan and the final
    reversal. *)
Definition backward_pass (f q : list T) : result (list T) :=
  init <- getitem_last f ;;
  m <- stack [rev q; rev f] ;;
  let xs := transpose (drop_first_column m) in
  '(_, x) <- scan reverse_scan_scal init xs ;;
  let x := [init] ++ x in
  Ok (rev x).

Definition tridiag_solve (a b c f : list T) : result (list T) :=
  '(f, q) <- forward_pass a b c f ;;
  backward_pass f q.
End Solver.

(** ** Exact real arithmetic *)

#[global] Instance Scalar_R : Scalar R := {|
  one := 1%R;
  add := Rplus;
  sub := Rminus;
  mul := Rmult;
  div := Rdiv;
  neg := Ropp
|}.

(** [jnp.linalg.norm(x)] of a one-dimensional array. *)
Definition norm (x : list R) : R :=
  sqrt (fold_right Rplus 0%R (map (fun v => (v * v)%R) x)).

(** ** The scalar workload *)

Definition nz : nat := 100.

Definition scal_fun (params : list R) : result R :=
  let d := length params in
  if d =? 0 then Raise ZeroDivisionError
  else
    let n_tiles := nz / d + 1 in
    let a := map (fun v => (v + 0.5)%R) (firstn nz (tile params n_tiles)) in
    let params_rolled := roll params 1 in
    let b := map (fun v => (v + 2)%R) (firstn nz (tile params_rolled n_tiles)) in
    let params_rolled := roll params 2 in
    let c := map (fun v => (v + 0.5)%R) (firstn nz (tile params_rolled n_tiles)) in
    let params_rolled := roll params 3 in
    let f := firstn nz (tile params_rolled n_tiles) in
    x <- tridiag_solve a b c f ;;
    Ok (norm x).

(** The assembly of one diagonal as the specification words it: entry [i]
    of the length-[n] sequence is entry [i mod d] of [params] rotated by
    [shift], and entry [j] of the rotated vector is entry [(j - shift) mod d]
    of [params] (elements move towards higher indices, as [jnp.roll] does). *)
Definition rotated_entry (shift : nat) (params : list R) (j : nat) : R :=
  let d := length params in
  nth ((j + (d - shift mod d)) mod d) params 0%R.

Definition cyclic_tiling (shift n : nat) (params : list R) : list R :=
  map (fun i => rotated_entry shift params (i mod length params)) (seq 0 n).

Definition offset_by (k : R) (x : list R) : list R :=
  map (fun v => (v + k)%R) x.

(** ** Special values of floating point

    A real number or one of the three special values of IEEE 754 arithmetic.
    Rounding and overflow are left out and the two zeros are identified (a
    zero divisor counts as [+0]); what is kept is how infinities and NaN
    arise and propagate through [+], [-], [*] and [/]. *)

Inductive ext : Type :=
| Fin (r : R)
| PInf
| NInf
| NaN.

Definition sign (r : R) : comparison :=
  match total_order_T r 0 with
  | inleft (left _) => Lt
  | inleft (right _) => Eq
  | inright _ => Gt
  end.

Definition ext_neg (x : ext) : ext :=
  match x with
  | Fin r => Fin (- r)
  | PInf => NInf
  | NInf => PInf
  | NaN => NaN
  end.

Definition ext_add (x y : ext) : ext :=
  match x, y with
  | NaN, _ | _, NaN => NaN
  | Fin r, Fin s => Fin (r + s)
  | PInf, NInf | NInf, PInf => NaN
  | PInf, _ | _, PInf => PInf
  | NInf, _ | _, NInf => NInf
  end.

Definition ext_sub (x y : ext) : ext := ext_add x (ext_neg y).

(** An infinity times a finite value: its sign follows the sign of the
    finite factor, and zero times infinity is NaN. *)
Definition inf_times (positive : bool) (r : R) : ext :=
  match sign r with
  | Eq => NaN
  | Gt => if positive then PInf else NInf
  | Lt => if positive then NInf else PInf
  end.

Definition ext_mul (x y : ext) : ext :=
  match x, y with
  | NaN, _ | _, NaN => NaN
  | Fin r, Fin s => Fin (r * s)
  | PInf, Fin r | Fin r, PInf => inf_times true r
  | NInf, Fin r | Fin r, NInf => inf_times false r
  | PInf, PInf | NInf, NInf => PInf
  | PInf, NInf | NInf, PInf => NInf
  end.

Definition ext_div (x y : ext) : ext :=
  match x, y with
  | NaN, _ | _, NaN => NaN
  | Fin r, Fin s =>
      match sign s with
      | Eq => inf_times true r
      | _ => Fin (r / s)
      end
  | Fin _, _ => Fin 0
  | PInf, Fin s =>
      match sign s with Lt => NInf | _ => PInf end
  | NInf, Fin s =>
      match sign s with Lt => PInf | _ => NInf end
  | _, _ => NaN
  end.

#[global] Instance Scalar_ext : Scalar ext := {|
  one := Fin 1;
  add := ext_add;
  sub := ext_sub;
  mul := ext_mul;
  div := ext_div;
  neg := ext_neg
|}.

Definition nonfinite (x : ext) : Prop :=
  match x with
  | Fin _ => False
  | _ => True
  end.

(** Row [i] of the product of the tridiagonal matrix with [x]; the
    neighbours [x[-1]] and [x[n]] that fall outside [x] count as [0]. *)
Definition tridiag_row (a b c x : list R) (i : nat) : R :=
  (nth i a 0 * match i with 0 => 0 | S j => nth j x 0 end
   + nth i b 0 * nth i x 0
   + nth i c 0 * nth (S i) x 0)%R.

(** ** Closed forms of the two scans

    What the scans compute, written by recursion on the arrays; the lemmas
    below show that the solver computes these. *)

Section ClosedForms.
Context {T : Type} `{Scalar T}.

(** Rows of the transposed stack of four arrays. *)
Fixpoint rows4 (ta tb tc tf : list T) : list (list T) :=
  match ta, tb, tc, tf with
  | a :: ta', b :: tb', c :: tc', f :: tf' =>
      [a; b; c; f] :: rows4 ta' tb' tc' tf'
  | _, _, _, _ => []
  end.

(** Rows of the transposed stack of two arrays. *)
Fixpoint rows2 (tq tf : list T) : list (list T) :=
  match tq, tf with
  | q :: tq', f :: tf' => [q; f] :: rows2 tq' tf'
  | _, _ => []
  end.

(** The pairs emitted by the forward scan started at [carry]. *)
Fixpoint forward_steps (carry : T * T) (ta tb tc tf : list T)
    : list (T * T) :=
  match ta, tb, tc, tf with
  | a :: ta', b :: tb', c :: tc', f :: tf' =>
      let cff := div one (add b (mul a (snd carry))) in
      let carry' := (mul cff (sub f (mul a (fst carry))), mul (neg cff) c) in
      carry' :: forward_steps carry' ta' tb' tc' tf'
  | _, _, _, _ => []
  end.

(** Back substitution from the last equation upwards. *)
Fixpoint backsub (fs qs : list T) : list T :=
  match fs, qs with
  | f :: fs', q :: qs' =>
      match backsub fs' qs' with
      | [] => [f]
      | x1 :: xs => add f (mul q x1) :: x1 :: xs
      end
  | _, _ => []
  end.
End ClosedForms.

(** ** Pointwise operations on arrays

    Used to state how the solver responds to combinations and rescalings of
    its inputs. *)



Definition vdiv (x y : list R) : list R :=
  map (fun p => (fst p / snd p)%R) (combine x y).


(** Strict diagonal dominance by rows. *)
Definition diag_dominant (a b c : list R) : Prop :=
  forall i, i < length b ->
    (Rabs (nth i a 0) + Rabs (nth i c 0) < Rabs (nth i b 0))%R.

(** No pivot of the elimination is zero; [qs] is the sequence of
    multipliers of the forward pass. *)
Definition nonzero_pivots (a b qs : list R) : Prop :=
  nth 0 b 0%R <> 0%R
  /\ forall i, 1 <= i < length b ->
       (nth i b 0 + nth i a 0 * nth (i - 1) qs 0 <> 0)%R.

(** ** The recurrences as relations *)

Section Recurrences.
Context {T : Type} `{Scalar T}.

(** [fs] and [qs] obey the seed and the forward recurrence of the system
    [a], [b], [c], [f]; [d] is the default of [nth]. *)
Definition forward_rel (d : T) (n : nat) (a b c f fs qs : list T) : Prop :=
  length fs = n /\ length qs = n
  /\ nth 0 fs d = div (nth 0 f d) (nth 0 b d)
  /\ nth 0 qs d = div (neg (nth 0 c d)) (nth 0 b d)
  /\ forall i, 1 <= i < n ->
       let cff :=
         div one (add (nth i b d) (mul (nth i a d) (nth (i - 1) qs d))) in
       nth i fs d
         = mul cff (sub (nth i f d) (mul (nth i a d) (nth (i - 1) fs d)))
       /\ nth i qs d = mul (neg cff) (nth i c d).

(** [x] obeys the backward recurrence of [fs] and [qs]. *)
Definition backward_rel (d : T) (n : nat) (fs qs x : list T) : Prop :=
  length x = n
  /\ nth (n - 1) x d = nth (n - 1) fs d
  /\ forall i, i + 1 < n ->
       nth i x d = add (nth i fs d) (mul (nth i qs d) (nth (i + 1) x d)).
End Recurrences.

(** ** The scans compute the closed forms *)

Lemma scan_app {C X Y : Type} (f : C -> X -> result (C * Y)) (xs1 xs2 : list X) :
  forall init carry ys1,
    scan f init xs1 = Ok (carry, ys1) ->
    scan f init (xs1 ++ xs2) =
      ('(final, ys2) <- scan f carry xs2 ;; Ok (final, ys1 ++ ys2)).
Proof.
  induction xs1 as [|x xs1 IH]; intros init carry ys1 Hs; cbn in *.
  - inversion Hs; subst. destruct (scan f carry xs2) as [[c' ys2]|e]; reflexivity.
  - destruct (f init x) as [[c1 y]|e]; cbn in *; [|discriminate].
    destruct (scan f c1 xs1) as [[c2 ys]|e] eqn:E; cbn in *; [|discriminate].
    inversion Hs; subst. rewrite (IH _ _ _ E).
    destruct (scan f carry xs2) as [[c' ys2]|e]; reflexivity.
Qed.

Section SolverFacts.
Context {T : Type} `{Scalar T}.

Lemma transpose_rows4 (ta tb tc tf : list T) :
  length tb = length ta -> length tc = length ta -> length tf = length ta ->
  transpose [ta; tb; tc; tf] = rows4 ta tb tc tf.
Proof.
  revert tb tc tf.
  induction ta as [|a ta IH]; intros [|b tb] [|c tc] [|f tf] Hb Hc Hf;
    try discriminate; [reflexivity|].
  cbn in Hb, Hc, Hf.
  specialize (IH tb tc tf ltac:(lia) ltac:(lia) ltac:(lia)).
  cbn in *. now rewrite IH.
Qed.

Lemma transpose_rows2 (tq tf : list T) :
  transpose [tq; tf] = rows2 tq tf.
Proof.
  revert tf. induction tq as [|q tq IH]; intros [|f tf]; try reflexivity.
  cbn in *. now rewrite IH.
Qed.

Lemma rows2_snoc (tq tf : list T) (q f : T) :
  length tq = length tf ->
  rows2 (tq ++ [q]) (tf ++ [f]) = rows2 tq tf ++ [[q; f]].
Proof.
  revert tf. induction tq as [|q' tq IH]; intros [|f' tf] Hl;
    try discriminate; [reflexivity|].
  cbn in *. rewrite IH by lia. reflexivity.
Qed.

Lemma scan_forward_steps (ta tb tc tf : list T) :
  forall carry,
    exists final,
      scan forward_scan_scal carry (rows4 ta tb tc tf)
      = Ok (final, forward_steps carry ta tb tc tf).
Proof.
  revert tb tc tf.
  induction ta as [|a ta IH]; intros tb tc tf [fp qp].
  - cbn. eauto.
  - destruct tb as [|b tb], tc as [|c tc], tf as [|f tf]; cbn; eauto.
    match goal with
    | |- context [scan _ ?c (rows4 ta tb tc tf)] =>
        destruct (IH tb tc tf c) as [final ->]
    end.
    cbn. eauto.
Qed.

Lemma forward_steps_length (ta tb tc tf : list T) :
  length tb = length ta -> length tc = length ta -> length tf = length ta ->
  forall carry, length (forward_steps carry ta tb tc tf) = length ta.
Proof.
  revert tb tc tf.
  induction ta as [|a ta IH]; intros [|b tb] [|c tc] [|f tf] Hb Hc Hf carry;
    try discriminate; [reflexivity|].
  cbn in *. rewrite IH by lia. reflexivity.
Qed.

Lemma forward_pass_cons (a0 b0 c0 f0 : T) (ta tb tc tf : list T) :
  length tb = length ta -> length tc = length ta -> length tf = length ta ->
  forward_pass (a0 :: ta) (b0 :: tb) (c0 :: tc) (f0 :: tf) =
    let init := (div f0 b0, div (neg c0) b0) in
    let ys := forward_steps init ta tb tc tf in
    Ok (fst init :: map fst ys, snd init :: map snd ys).
Proof.
  intros Hb Hc Hf. unfold forward_pass. cbn [getitem_first bind].
  unfold stack. cbn [forallb length].
  rewrite Hb, Hc, Hf, Nat.eqb_refl. cbn [andb bind].
  unfold drop_first_column. cbn [map tl].
  rewrite (transpose_rows4 _ _ _ _ Hb Hc Hf).
  destruct (scan_forward_steps ta tb tc tf (div f0 b0, div (neg c0) b0))
    as [final ->].
  reflexivity.
Qed.

Lemma forward_steps_nth (ta tb tc tf : list T) :
  forall (carry : T * T) (a0 b0 c0 f0 d : T) (j : nat),
    length tb = length ta -> length tc = length ta -> length tf = length ta ->
    j < length ta ->
    let F := fst carry :: map fst (forward_steps carry ta tb tc tf) in
    let Q := snd carry :: map snd (forward_steps carry ta tb tc tf) in
    let cff :=
      div one (add (nth (S j) (b0 :: tb) d)
                   (mul (nth (S j) (a0 :: ta) d) (nth j Q d))) in
    nth (S j) F d
      = mul cff (sub (nth (S j) (f0 :: tf) d)
                     (mul (nth (S j) (a0 :: ta) d) (nth j F d)))
    /\ nth (S j) Q d = mul (neg cff) (nth (S j) (c0 :: tc) d).
Proof.
  revert tb tc tf.
  induction ta as [|a ta IH]; intros [|b tb] [|c tc] [|f tf];
    intros carry a0 b0 c0 f0 d j Hb Hc Hf Hj; try discriminate;
    cbn in Hj; try lia.
  cbn in Hb, Hc, Hf.
  destruct j as [|j].
  - cbn. split; reflexivity.
  - cbn [forward_steps map].
    set (cff0 := div one (add b (mul a (snd carry)))).
    set (carry' := (mul cff0 (sub f (mul a (fst carry))), mul (neg cff0) c)).
    specialize (IH tb tc tf carry' a b c f d j
                  ltac:(lia) ltac:(lia) ltac:(lia) ltac:(lia)).
    exact IH.
Qed.

(** Forward pass, index by index. *)
Lemma forward_pass_spec (n : nat) (a b c f : list T) :
  1 <= n ->
  length a = n -> length b = n -> length c = n -> length f = n ->
  exists fs qs,
    forward_pass a b c f = Ok (fs, qs)
    /\ length fs = n /\ length qs = n
    /\ (forall d, nth 0 fs d = div (nth 0 f d) (nth 0 b d)
                  /\ nth 0 qs d = div (neg (nth 0 c d)) (nth 0 b d))
    /\ (forall d i, 1 <= i < n ->
          let cff :=
            div one (add (nth i b d) (mul (nth i a d) (nth (i - 1) qs d))) in
          nth i fs d
            = mul cff (sub (nth i f d) (mul (nth i a d) (nth (i - 1) fs d)))
          /\ nth i qs d = mul (neg cff) (nth i c d)).
Proof.
  intros Hn Ha Hb Hc Hf.
  destruct a as [|a0 ta], b as [|b0 tb], c as [|c0 tc], f as [|f0 tf];
    cbn in Ha, Hb, Hc, Hf; try lia.
  assert (Lb : length tb = length ta) by lia.
  assert (Lc : length tc = length ta) by lia.
  assert (Lf : length tf = length ta) by lia.
  rewrite (forward_pass_cons a0 b0 c0 f0 _ _ _ _ Lb Lc Lf). cbn zeta.
  eexists _, _. split; [reflexivity|].
  cbn [fst snd].
  repeat split.
  - cbn. rewrite length_map, (forward_steps_length _ _ _ _ Lb Lc Lf). lia.
  - cbn. rewrite length_map, (forward_steps_length _ _ _ _ Lb Lc Lf). lia.
  - destruct i as [|j]; [lia|].
    replace (S j - 1) with j by lia.
    apply (forward_steps_nth ta tb tc tf (div f0 b0, div (neg c0) b0)
             a0 b0 c0 f0 d j Lb Lc Lf). lia.
  - destruct i as [|j]; [lia|].
    replace (S j - 1) with j by lia.
    apply (forward_steps_nth ta tb tc tf (div f0 b0, div (neg c0) b0)
             a0 b0 c0 f0 d j Lb Lc Lf). lia.
Qed.

Lemma backsub_length (fs : list T) :
  forall qs, length qs = length fs -> length (backsub fs qs) = length fs.
Proof.
  induction fs as [|f fs IH]; intros [|q qs] Hl; try discriminate;
    [reflexivity|].
  cbn in *. specialize (IH qs ltac:(lia)).
  destruct (backsub fs qs) as [|x1 xs]; cbn in *; lia.
Qed.

Lemma backsub_nth_S (f q : T) (fs qs : list T) (i : nat) (d : T) :
  nth (S i) (backsub (f :: fs) (q :: qs)) d = nth i (backsub fs qs) d.
Proof.
  cbn. destruct (backsub fs qs) as [|x1 xs]; [destruct i|]; reflexivity.
Qed.

Lemma backsub_nth (fs : list T) :
  forall qs i d,
    length qs = length fs -> S i < length fs ->
    nth i (backsub fs qs) d
      = add (nth i fs d) (mul (nth i qs d) (nth (S i) (backsub fs qs) d)).
Proof.
  induction fs as [|f fs IH]; intros [|q qs] i d Hl Hi; cbn in Hl, Hi;
    try lia.
  destruct i as [|i].
  - rewrite backsub_nth_S. cbn.
    pose proof (backsub_length fs qs ltac:(lia)) as Hlen.
    destruct (backsub fs qs) as [|x1 xs]; cbn in *; [lia|reflexivity].
  - rewrite !backsub_nth_S. cbn [nth]. apply IH; lia.
Qed.

Lemma backsub_last (fs : list T) :
  forall qs d,
    length qs = length fs -> 1 <= length fs ->
    nth (length fs - 1) (backsub fs qs) d = nth (length fs - 1) fs d.
Proof.
  induction fs as [|f fs IH]; intros [|q qs] d Hl Hn; cbn in Hl, Hn;
    try lia.
  destruct fs as [|f' fs].
  - destruct qs; [reflexivity|discriminate].
  - replace (length (f :: f' :: fs) - 1) with (S (length (f' :: fs) - 1))
      by (cbn; lia).
    rewrite backsub_nth_S. cbn [nth]. apply IH; cbn in *; lia.
Qed.

Lemma getitem_first_tl_app (l : list T) (v w : T) :
  getitem_first l = Ok v ->
  getitem_first (l ++ [w]) = Ok v /\ tl (l ++ [w]) = tl l ++ [w].
Proof. destruct l; cbn; [discriminate|auto]. Qed.

Lemma scan_reverse_backsub (fs : list T) :
  forall qs,
    length qs = length fs -> 1 <= length fs ->
    exists fl ys carry,
      getitem_last fs = Ok fl
      /\ getitem_first (rev qs) <> Raise IndexError
      /\ scan reverse_scan_scal fl (rows2 (tl (rev qs)) (tl (rev fs)))
         = Ok (carry, ys)
      /\ rev (fl :: ys) = backsub fs qs
      /\ head (backsub fs qs) = Some carry.
Proof.
  induction fs as [|f fs IH]; intros [|q qs] Hl Hn; cbn in Hl, Hn; try lia.
  destruct fs as [|f' fs].
  - destruct qs; [|discriminate]. exists f, [], f. cbn.
    repeat split; congruence.
  - destruct (IH qs ltac:(lia) ltac:(cbn; lia))
      as (fl & ys & carry & Hlast & Hq & Hscan & Hrev & Hhd).
    unfold getitem_last in *.
    change (rev (f :: f' :: fs)) with (rev (f' :: fs) ++ [f]).
    change (rev (q :: qs)) with (rev qs ++ [q]).
    destruct (getitem_first_tl_app _ _ f Hlast) as [-> ->].
    destruct (getitem_first (rev qs)) as [ql|e] eqn:Eq.
    2:{ destruct (rev qs); cbn in Eq; [|discriminate].
        inversion Eq; subst. congruence. }
    destruct (getitem_first_tl_app _ _ q Eq) as [Eq' ->].
    exists fl, (ys ++ [add f (mul q carry)]), (add f (mul q carry)).
    rewrite rows2_snoc
      by (destruct (rev qs) eqn:E1, (rev (f' :: fs)) eqn:E2;
          apply (f_equal (@length T)) in E1, E2;
          rewrite ?length_rev in E1, E2; cbn in *; lia).
    rewrite (scan_app _ _ _ _ _ _ Hscan). cbn [scan reverse_scan_scal bind].
    repeat split.
    + congruence.
    + change (fl :: ys ++ [add f (mul q carry)])
        with ((fl :: ys) ++ [add f (mul q carry)]).
      rewrite rev_app_distr, Hrev. cbn [rev app].
      change (backsub (f :: f' :: fs) (q :: qs))
        with (match backsub (f' :: fs) qs with
              | [] => [f]
              | x1 :: xs => add f (mul q x1) :: x1 :: xs
              end).
      destruct (backsub (f' :: fs) qs) as [|x1 xs]; [discriminate|].
      cbn in Hhd. inversion Hhd; subst. reflexivity.
    + change (backsub (f :: f' :: fs) (q :: qs))
        with (match backsub (f' :: fs) qs with
              | [] => [f]
              | x1 :: xs => add f (mul q x1) :: x1 :: xs
              end).
      destruct (backsub (f' :: fs) qs) as [|x1 xs]; [discriminate|].
      cbn in Hhd. inversion Hhd; subst. reflexivity.
Qed.

Lemma backward_pass_backsub (fs qs : list T) :
  length qs = length fs -> 1 <= length fs ->
  backward_pass fs qs = Ok (backsub fs qs).
Proof.
  intros Hl Hn.
  destruct (scan_reverse_backsub fs qs Hl Hn)
    as (fl & ys & carry & Hlast & _ & Hscan & Hrev & _).
  unfold backward_pass. rewrite Hlast. cbn [bind].
  unfold stack. cbn [forallb].
  rewrite !length_rev, <- Hl, Nat.eqb_refl. cbn [andb bind].
  unfold drop_first_column. cbn [map].
  rewrite transpose_rows2, Hscan. cbn [bind app].
  now rewrite Hrev.
Qed.

(** Backward pass, index by index. *)
Lemma backward_pass_spec (n : nat) (fs qs : list T) :
  1 <= n -> length fs = n -> length qs = n ->
  exists x,
    backward_pass fs qs = Ok x
    /\ length x = n
    /\ (forall d, nth (n - 1) x d = nth (n - 1) fs d)
    /\ (forall d i, i + 1 < n ->
          nth i x d = add (nth i fs d) (mul (nth i qs d) (nth (i + 1) x d))).
Proof.
  intros Hn Hf Hq. exists (backsub fs qs).
  assert (Hl : length qs = length fs) by lia.
  split; [apply backward_pass_backsub; lia|].
  split; [rewrite backsub_length; lia|].
  split.
  - intros d. subst n. apply backsub_last; lia.
  - intros d i Hi. replace (i + 1) with (S i) by lia.
    apply backsub_nth; lia.
Qed.

(** The solver on well-shaped inputs: both passes succeed. *)
Lemma tridiag_solve_spec (n : nat) (a b c f : list T) :
  1 <= n ->
  length a = n -> length b = n -> length c = n -> length f = n ->
  exists fs qs x,
    forward_pass a b c f = Ok (fs, qs)
    /\ backward_pass fs qs = Ok x
    /\ tridiag_solve a b c f = Ok x
    /\ length fs = n /\ length qs = n /\ length x = n.
Proof.
  intros Hn Ha Hb Hc Hf.
  destruct (forward_pass_spec n a b c f Hn Ha Hb Hc Hf)
    as (fs & qs & Hfw & Lfs & Lqs & _).
  destruct (backward_pass_spec n fs qs Hn Lfs Lqs) as (x & Hbw & Lx & _).
  exists fs, qs, x. unfold tridiag_solve. rewrite Hfw. cbn.
  repeat split; assumption.
Qed.
End SolverFacts.

(** ** The array operations on small inputs *)

Example transpose_2x3 :
  transpose [[1; 2; 3]; [4; 5; 6]] = [[1; 4]; [2; 5]; [3; 6]].
Proof. reflexivity. Qed.

Example transpose_no_columns : transpose [[]; []; []; [] : list nat] = [].
Proof. reflexivity. Qed.

Example stack_ragged : stack [[1; 2]; [3]] = Raise ValueError.
Proof. reflexivity. Qed.

Example tile_3 : tile [1; 2] 3 = [1; 2; 1; 2; 1; 2].
Proof. reflexivity. Qed.

Example solve_empty :
  tridiag_solve ([] : list R) [] [] [] = Raise IndexError.
Proof. reflexivity. Qed.

Example solve_ragged :
  tridiag_solve [0; 1]%R [2; 2]%R [1]%R [1; 3]%R = Raise ValueError.
Proof. reflexivity. Qed.

(** ** Shape safety *)

(** C10: on four arrays of one length [n >= 1] the solver raises nothing
    (no index is out of range, no stack or unpacking fails) and returns an
    array of length [n]; this holds for every scalar type. *)
Theorem tridiag_solve_length (T : Type) (ST : Scalar T) (n : nat)
    (a b c f : list T) :
  1 <= n ->
  length a = n -> length b = n -> length c = n -> length f = n ->
  exists x, tridiag_solve a b c f = Ok x /\ length x = n.
Proof.
  intros Hn Ha Hb Hc Hf.
  destruct (tridiag_solve_spec n a b c f Hn Ha Hb Hc Hf)
    as (fs & qs & x & _ & _ & Hx & _ & _ & Lx).
  exists x. auto.
Qed.

Lemma tridiag_solve_length_witness :
  exists x, tridiag_solve [0; 1]%R [2; 2]%R [1; 0]%R [1; 3]%R = Ok x
            /\ length x = 2.
Proof.
  apply (tridiag_solve_length R Scalar_R 2); try reflexivity; lia.
Defined.

(** ** The passes *)

Open Scope R_scope.

Ltac real_ops := cbn [div add sub mul neg one Scalar_R] in *.

(** C2: the forward pass returns the sequences [f_0..f_{n-1}] and
    [q_0..q_{n-1}] given by the seed [f_0 = f[0]/b[0]], [q_0 = -c[0]/b[0]]
    and, for [1 <= i < n], [cff = 1/(b[i] + a[i]*q_{i-1})],
    [f_i = cff*(f[i] - a[i]*f_{i-1})], [q_i = -cff*c[i]].  It holds from
    [n = 1] on and needs no assumption on the pivots. *)
Theorem forward_pass_recurrence (n : nat) (a b c f : list R) :
  (1 <= n)%nat ->
  length a = n -> length b = n -> length c = n -> length f = n ->
  exists fs qs,
    forward_pass a b c f = Ok (fs, qs)
    /\ length fs = n /\ length qs = n
    /\ nth 0 fs 0 = nth 0 f 0 / nth 0 b 0
    /\ nth 0 qs 0 = - nth 0 c 0 / nth 0 b 0
    /\ forall i, (1 <= i < n)%nat ->
         let cff := 1 / (nth i b 0 + nth i a 0 * nth (i - 1) qs 0) in
         nth i fs 0 = cff * (nth i f 0 - nth i a 0 * nth (i - 1) fs 0)
         /\ nth i qs 0 = - cff * nth i c 0.
Proof.
  intros Hn Ha Hb Hc Hf.
  destruct (forward_pass_spec n a b c f Hn Ha Hb Hc Hf)
    as (fs & qs & Hfw & Lfs & Lqs & Hseed & Hrec).
  exists fs, qs. repeat (split; [assumption|]).
  split; [apply (Hseed 0)|]. split; [apply (Hseed 0)|].
  intros i Hi. exact (Hrec 0 i Hi).
Qed.

Lemma forward_pass_recurrence_witness :
  exists fs qs,
    forward_pass [0; 1] [2; 2] [1; 0] [1; 3] = Ok (fs, qs)
    /\ length fs = 2%nat /\ length qs = 2%nat
    /\ nth 0 fs 0 = 1 / 2
    /\ nth 0 qs 0 = - 1 / 2
    /\ forall i, (1 <= i < 2)%nat ->
         let cff :=
           1 / (nth i [2; 2] 0 + nth i [0; 1] 0 * nth (i - 1) qs 0) in
         nth i fs 0 = cff * (nth i [1; 3] 0 - nth i [0; 1] 0 * nth (i - 1) fs 0)
         /\ nth i qs 0 = - cff * nth i [1; 0] 0.
Proof.
  apply (forward_pass_recurrence 2 [0; 1] [2; 2] [1; 0] [1; 3]);
    try reflexivity; lia.
Defined.

(** C3: from sequences [f] and [q] of length [n >= 1] the backward pass
    returns, in natural order, the sequence with [x_{n-1} = f_{n-1}] and
    [x_i = f_i + q_i * x_{i+1}] for every [i < n - 1]. *)
Theorem backward_pass_recurrence (n : nat) (fs qs : list R) :
  (1 <= n)%nat -> length fs = n -> length qs = n ->
  exists x,
    backward_pass fs qs = Ok x
    /\ length x = n
    /\ nth (n - 1) x 0 = nth (n - 1) fs 0
    /\ forall i, (i + 1 < n)%nat ->
         nth i x 0 = nth i fs 0 + nth i qs 0 * nth (i + 1) x 0.
Proof.
  intros Hn Lfs Lqs.
  destruct (backward_pass_spec n fs qs Hn Lfs Lqs)
    as (x & Hbw & Lx & Hlast & Hrec).
  exists x. repeat (split; [assumption|]).
  split; [apply Hlast|]. intros i Hi. exact (Hrec 0 i Hi).
Qed.

Lemma backward_pass_recurrence_witness :
  exists x,
    backward_pass [1; 2; 3] [4; 5; 6] = Ok x
    /\ length x = 3%nat
    /\ nth (3 - 1) x 0 = nth (3 - 1) [1; 2; 3] 0
    /\ forall i, (i + 1 < 3)%nat ->
         nth i x 0 = nth i [1; 2; 3] 0 + nth i [4; 5; 6] 0 * nth (i + 1) x 0.
Proof.
  apply (backward_pass_recurrence 3 [1; 2; 3] [4; 5; 6]);
    try reflexivity; lia.
Defined.

Example backward_pass_3 :
  backward_pass [1; 2; 3] [4; 5; 6] = Ok [1 + 4 * (2 + 5 * 3); 2 + 5 * 3; 3].
Proof. reflexivity. Qed.

(** ** Boundary and known systems *)

(** C4: on singletons both scans receive no row and the solver returns
    [[f/b]], whatever [a0] and [c0] are; this holds for every scalar type
    and every [b]. *)
Theorem tridiag_solve_singleton (T : Type) (ST : Scalar T) (a0 b c0 f : T) :
  transpose (drop_first_column [[a0]; [b]; [c0]; [f]]) = []
  /\ transpose (drop_first_column [rev [div (neg c0) b]; rev [div f b]]) = []
  /\ forward_pass [a0] [b] [c0] [f] = Ok ([div f b], [div (neg c0) b])
  /\ tridiag_solve [a0] [b] [c0] [f] = Ok [div f b].
Proof. repeat split; reflexivity. Qed.

(** C5: the system [2*x0 + x1 = 1], [x0 + 2*x1 = 3] given as [a=[0,1]],
    [b=[2,2]], [c=[1,0]], [f=[1,3]] is solved by [x = [-1/3, 5/3]]. *)
Theorem tridiag_solve_2x2 :
  tridiag_solve [0; 1] [2; 2] [1; 0] [1; 3] = Ok [-1 / 3; 5 / 3].
Proof.
  cbn. do 2 f_equal; [field|]. f_equal. field.
Qed.

(** ** Correctness of the solve *)

(** C1: when no pivot is zero ([b[0] <> 0] and [b[i] + a[i]*q[i-1] <> 0]
    for [1 <= i < n], with [q] the sequence of the forward pass), the
    solver returns [x] of length [n] with
    [a[i]*x[i-1] + b[i]*x[i] + c[i]*x[i+1] = f[i]] in every row, the
    neighbours outside [x] counting as [0]. *)
Theorem tridiag_solve_correct (n : nat) (a b c f fs qs : list R) :
  (1 <= n)%nat ->
  length a = n -> length b = n -> length c = n -> length f = n ->
  forward_pass a b c f = Ok (fs, qs) ->
  nth 0 b 0 <> 0 ->
  (forall i, (1 <= i < n)%nat ->
     nth i b 0 + nth i a 0 * nth (i - 1) qs 0 <> 0) ->
  exists x,
    tridiag_solve a b c f = Ok x
    /\ length x = n
    /\ forall i, (i < n)%nat -> tridiag_row a b c x i = nth i f 0.
Proof.
  intros Hn Ha Hb Hc Hf Hfw Hb0 Hpiv.
  destruct (forward_pass_spec n a b c f Hn Ha Hb Hc Hf)
    as (fs' & qs' & Hfw' & Lfs & Lqs & Hseed & Hrec).
  rewrite Hfw in Hfw'. inversion Hfw'; subst fs' qs'; clear Hfw'.
  destruct (backward_pass_spec n fs qs Hn Lfs Lqs)
    as (x & Hbw & Lx & Hlast & Hback).
  exists x. split; [unfold tridiag_solve; rewrite Hfw; exact Hbw|].
  split; [assumption|].
  specialize (Hseed 0). specialize (Hrec 0). specialize (Hlast 0).
  specialize (Hback 0). real_ops.
  assert (Hx : forall i, (i < n)%nat ->
                 nth i x 0 = nth i fs 0 + nth i qs 0 * nth (S i) x 0).
  { intros i Hi. destruct (Nat.eq_dec (i + 1) n) as [E|E].
    - rewrite (nth_overflow x (n := S i)) by lia.
      replace i with (n - 1)%nat by lia. rewrite Hlast. ring.
    - replace (S i) with (i + 1)%nat by lia. apply Hback. lia. }
  intros i Hi. unfold tridiag_row.
  destruct i as [|j].
  - rewrite (Hx 0%nat Hi). destruct Hseed as [-> ->]. field. exact Hb0.
  - specialize (Hpiv (S j) ltac:(lia)).
    destruct (Hrec (S j) ltac:(lia)) as [Ef Eq]. cbn zeta in Ef, Eq.
    replace (S j - 1)%nat with j in * by lia.
    rewrite (Hx j ltac:(lia)), (Hx (S j) Hi), Ef, Eq.
    field. exact Hpiv.
Qed.

Lemma tridiag_solve_correct_witness :
  exists x,
    tridiag_solve [0; 1] [2; 2] [1; 0] [1; 3] = Ok x
    /\ length x = 2%nat
    /\ forall i, (i < 2)%nat ->
         tridiag_row [0; 1] [2; 2] [1; 0] x i = nth i [1; 3] 0.
Proof.
  apply (tridiag_solve_correct 2 [0; 1] [2; 2] [1; 0] [1; 3]
           [1 / 2; 1 / (2 + 1 * (- 1 / 2)) * (3 - 1 * (1 / 2))]
           [- 1 / 2; - (1 / (2 + 1 * (- 1 / 2))) * 0]);
    try reflexivity; try lia.
  - cbn. lra.
  - intros i Hi. assert (i = 1%nat) as -> by lia. cbn. lra.
Defined.

(** ** Unused entries *)

Close Scope R_scope.

Lemma nth_of_nth_error {A : Type} (l l' : list A) (i : nat) (d : A) :
  i < length l -> i < length l' ->
  nth_error l i = nth_error l' i -> nth i l d = nth i l' d.
Proof.
  intros Hl Hl' E.
  rewrite (nth_error_nth' l d Hl), (nth_error_nth' l' d Hl') in E.
  congruence.
Qed.

(** C7: two runs whose inputs differ at most in [a[0]] and in [c[n-1]]
    return the same result; this holds for every scalar type. *)
Theorem tridiag_solve_ignores_a0_and_c_last (T : Type) (ST : Scalar T)
    (n : nat) (a a' b c c' f : list T) :
  1 <= n ->
  length a = n -> length a' = n -> length b = n ->
  length c = n -> length c' = n -> length f = n ->
  (forall i, i <> 0 -> nth_error a i = nth_error a' i) ->
  (forall i, i <> n - 1 -> nth_error c i = nth_error c' i) ->
  tridiag_solve a b c f = tridiag_solve a' b c' f.
Proof.
  intros Hn La La' Lb Lc Lc' Lf Hagree_a Hagree_c.
  pose (d := @one T ST).
  assert (Ha : forall i, 1 <= i < n -> nth i a d = nth i a' d).
  { intros i Hi. apply nth_of_nth_error; try lia. apply Hagree_a. lia. }
  assert (Hc : forall i, i + 1 < n -> nth i c d = nth i c' d).
  { intros i Hi. apply nth_of_nth_error; try lia. apply Hagree_c. lia. }
  destruct (forward_pass_spec n a b c f Hn La Lb Lc Lf)
    as (fs & qs & Hfw & Lfs & Lqs & Hseed & Hrec).
  destruct (forward_pass_spec n a' b c' f Hn La' Lb Lc' Lf)
    as (fs' & qs' & Hfw' & Lfs' & Lqs' & Hseed' & Hrec').
  destruct (backward_pass_spec n fs qs Hn Lfs Lqs)
    as (x & Hbw & Lx & Hlast & Hback).
  destruct (backward_pass_spec n fs' qs' Hn Lfs' Lqs')
    as (x' & Hbw' & Lx' & Hlast' & Hback').
  specialize (Hseed d). specialize (Hseed' d).
  specialize (Hrec d). specialize (Hrec' d).
  specialize (Hlast d). specialize (Hlast' d).
  specialize (Hback d). specialize (Hback' d).
  (* the forward sequences agree, [q] possibly not at its last index *)
  assert (Hfq : forall i, i < n ->
            nth i fs d = nth i fs' d
            /\ (i + 1 < n -> nth i qs d = nth i qs' d)).
  { induction i as [|j IH]; intros Hi.
    - destruct Hseed as [-> Eq], Hseed' as [-> Eq'].
      split; [reflexivity|]. intros Hlt.
      rewrite Eq, Eq', (Hc 0 Hlt). reflexivity.
    - destruct (IH ltac:(lia)) as [IHf IHq].
      specialize (IHq ltac:(lia)).
      destruct (Hrec (S j) ltac:(lia)) as [Ef Eq].
      destruct (Hrec' (S j) ltac:(lia)) as [Ef' Eq'].
      cbn zeta in Ef, Eq, Ef', Eq'.
      replace (S j - 1) with j in * by lia.
      rewrite Ef, Ef', Eq, Eq', <- (Ha (S j)), <- IHf, <- IHq by lia.
      split; [reflexivity|]. intros Hlt. rewrite (Hc (S j) Hlt). reflexivity. }
  (* the solutions agree, from the last index down *)
  assert (Hx : forall k, k < n -> nth (n - 1 - k) x d = nth (n - 1 - k) x' d).
  { induction k as [|k IH]; intros Hk.
    - rewrite Nat.sub_0_r, Hlast, Hlast'. apply Hfq. lia.
    - specialize (IH ltac:(lia)).
      rewrite (Hback (n - 1 - S k)), (Hback' (n - 1 - S k)) by lia.
      replace (n - 1 - S k + 1) with (n - 1 - k) by lia.
      destruct (Hfq (n - 1 - S k) ltac:(lia)) as [-> Eq].
      rewrite Eq, IH by lia. reflexivity. }
  assert (x = x') as <-.
  { apply (nth_ext x x' d d); [lia|].
    intros i Hi. replace i with (n - 1 - (n - 1 - i)) by lia.
    apply Hx. lia. }
  unfold tridiag_solve. rewrite Hfw, Hfw'. cbn [bind].
  rewrite Hbw, Hbw'. reflexivity.
Qed.

Lemma tridiag_solve_ignores_a0_and_c_last_witness :
  tridiag_solve [0; 1]%R [2; 2]%R [1; 0]%R [1; 3]%R
  = tridiag_solve [7; 1]%R [2; 2]%R [1; 9]%R [1; 3]%R.
Proof.
  apply (tridiag_solve_ignores_a0_and_c_last R Scalar_R 2);
    try reflexivity; try lia.
  - intros [|[|i]] Hi; [lia|reflexivity|reflexivity].
  - intros [|[|i]] Hi; [reflexivity|cbn in Hi; lia|reflexivity].
Defined.

(** ** Zero pivots under the special values of floating point *)

Lemma sign_0 : sign 0 = Eq.
Proof.
  unfold sign. destruct (total_order_T 0 0) as [[Hlt|_]|Hgt];
    [exfalso; lra|reflexivity|exfalso; lra].
Qed.

Lemma sign_1 : sign 1 = Gt.
Proof.
  unfold sign. destruct (total_order_T 1 0) as [[Hlt|Heq]|Hgt];
    [exfalso; lra|exfalso; lra|reflexivity].
Qed.

Lemma nonfinite_inf_times (positive : bool) (r : R) :
  nonfinite (inf_times positive r).
Proof. unfold inf_times. destruct (sign r), positive; exact I. Qed.

Lemma nonfinite_neg (x : ext) : nonfinite x -> nonfinite (ext_neg x).
Proof. destruct x; cbn; auto. Qed.

Lemma nonfinite_add_l (x y : ext) : nonfinite x -> nonfinite (ext_add x y).
Proof. destruct x, y; cbn; auto. Qed.

Lemma nonfinite_add_r (x y : ext) : nonfinite y -> nonfinite (ext_add x y).
Proof. destruct x, y; cbn; auto. Qed.

Lemma nonfinite_sub_r (x y : ext) : nonfinite y -> nonfinite (ext_sub x y).
Proof. intros Hy. apply nonfinite_add_r, nonfinite_neg, Hy. Qed.

Lemma nonfinite_mul_l (x y : ext) : nonfinite x -> nonfinite (ext_mul x y).
Proof.
  destruct x, y; cbn; auto using nonfinite_inf_times; contradiction.
Qed.

Lemma nonfinite_mul_r (x y : ext) : nonfinite y -> nonfinite (ext_mul x y).
Proof.
  destruct x, y; cbn; auto using nonfinite_inf_times; contradiction.
Qed.

Lemma nonfinite_div_0 (x : ext) : nonfinite (ext_div x (Fin 0)).
Proof.
  destruct x; unfold ext_div; rewrite ?sign_0;
    try apply nonfinite_inf_times; exact I.
Qed.

Create HintDb nonfinite.

#[local] Hint Resolve nonfinite_neg nonfinite_add_l nonfinite_add_r
  nonfinite_sub_r nonfinite_mul_l nonfinite_mul_r nonfinite_div_0
  : nonfinite.

Example singular_1x1 :
  tridiag_solve [Fin 0] [Fin 0] [Fin 0] [Fin 1] = Ok [PInf].
Proof.
  cbn. unfold inf_times. rewrite sign_0, sign_1. reflexivity.
Qed.

Example singular_1x1_zero_rhs :
  tridiag_solve [Fin 0] [Fin 0] [Fin 0] [Fin 0] = Ok [NaN].
Proof.
  cbn. unfold inf_times. rewrite !sign_0. reflexivity.
Qed.

(** C9: with a zero pivot ([b[0] = 0], or [b[i] + a[i]*q[i-1] = 0] at some
    [1 <= i < n]) the solver still raises nothing: it returns an array of
    length [n], and every entry of it is an infinity or NaN. *)
Theorem tridiag_solve_zero_pivot (n : nat) (a b c f fs qs : list ext) :
  1 <= n ->
  length a = n -> length b = n -> length c = n -> length f = n ->
  forward_pass a b c f = Ok (fs, qs) ->
  (nth 0 b NaN = Fin 0
   \/ exists i, 1 <= i < n
        /\ ext_add (nth i b NaN) (ext_mul (nth i a NaN) (nth (i - 1) qs NaN))
           = Fin 0) ->
  exists x,
    tridiag_solve a b c f = Ok x
    /\ length x = n
    /\ Forall nonfinite x.
Proof.
  intros Hn Ha Hb Hc Hf Hfw Hzero.
  destruct (forward_pass_spec n a b c f Hn Ha Hb Hc Hf)
    as (fs' & qs' & Hfw' & Lfs & Lqs & Hseed & Hrec).
  rewrite Hfw in Hfw'. inversion Hfw'; subst fs' qs'; clear Hfw'.
  destruct (backward_pass_spec n fs qs Hn Lfs Lqs)
    as (x & Hbw & Lx & Hlast & Hback).
  exists x. split; [unfold tridiag_solve; rewrite Hfw; exact Hbw|].
  split; [assumption|].
  specialize (Hseed NaN). specialize (Hrec NaN). specialize (Hlast NaN).
  specialize (Hback NaN). cbn [div add sub mul neg one Scalar_ext] in *.
  (* the entry of [f] at the zero pivot is not finite *)
  assert (Hat : exists i, i < n /\ nonfinite (nth i fs NaN)).
  { destruct Hzero as [Hb0|(i & Hi & Hp)].
    - exists 0. split; [lia|]. destruct Hseed as [-> _]. rewrite Hb0.
      apply nonfinite_div_0.
    - exists i. split; [lia|]. destruct (Hrec i Hi) as [-> _].
      cbn zeta. rewrite Hp. apply nonfinite_mul_l, nonfinite_div_0. }
  destruct Hat as (i0 & Hi0 & Hnf).
  (* and so is every later one *)
  assert (Hup : forall k, i0 + k < n -> nonfinite (nth (i0 + k) fs NaN)).
  { induction k as [|k IH]; intros Hk.
    - now rewrite Nat.add_0_r.
    - specialize (IH ltac:(lia)).
      destruct (Hrec (i0 + S k) ltac:(lia)) as [-> _]. cbn zeta.
      replace (i0 + S k - 1) with (i0 + k) by lia.
      auto with nonfinite. }
  assert (Hfl : nonfinite (nth (n - 1) fs NaN)).
  { replace (n - 1) with (i0 + (n - 1 - i0)) by lia. apply Hup. lia. }
  (* back substitution carries it to every entry of [x] *)
  assert (Hx : forall k, k < n -> nonfinite (nth (n - 1 - k) x NaN)).
  { induction k as [|k IH]; intros Hk.
    - now rewrite Nat.sub_0_r, Hlast.
    - specialize (IH ltac:(lia)).
      rewrite (Hback (n - 1 - S k)) by lia.
      replace (n - 1 - S k + 1) with (n - 1 - k) by lia.
      auto with nonfinite. }
  apply Forall_nth. intros i d Hi.
  rewrite (nth_indep x d NaN Hi).
  replace i with (n - 1 - (n - 1 - i)) by lia. apply Hx. lia.
Qed.

Lemma tridiag_solve_zero_pivot_witness :
  exists x,
    tridiag_solve [Fin 0] [Fin 0] [Fin 0] [Fin 1] = Ok x
    /\ length x = 1
    /\ Forall nonfinite x.
Proof.
  apply (tridiag_solve_zero_pivot 1 [Fin 0] [Fin 0] [Fin 0] [Fin 1]
           [ext_div (Fin 1) (Fin 0)] [ext_div (ext_neg (Fin 0)) (Fin 0)]);
    try reflexivity; try lia.
  left. reflexivity.
Defined.

(** ** The assembled system *)

Section Tiling.
Context {A : Type}.

Lemma tile_S (x : list A) (r : nat) : tile x (S r) = x ++ tile x r.
Proof. reflexivity. Qed.

Lemma length_tile (x : list A) (r : nat) :
  length (tile x r) = r * length x.
Proof.
  induction r as [|r IH]; [reflexivity|].
  rewrite tile_S, length_app, IH. cbn. lia.
Qed.

Lemma nth_tile (x : list A) (r i : nat) (d : A) :
  i < r * length x -> nth i (tile x r) d = nth (i mod length x) x d.
Proof.
  revert i. induction r as [|r IH]; intros i Hi; [cbn in Hi; lia|].
  rewrite tile_S.
  destruct (Nat.lt_ge_cases i (length x)) as [Hlt|Hge].
  - rewrite app_nth1, Nat.mod_small by assumption. reflexivity.
  - rewrite app_nth2 by assumption.
    rewrite IH by (cbn in Hi; lia).
    replace i with (i - length x + 1 * length x) at 2 by lia.
    rewrite Nat.Div0.mod_add. reflexivity.
Qed.

Lemma length_roll (x : list A) (k : nat) : length (roll x k) = length x.
Proof.
  unfold roll. destruct (length x =? 0) eqn:E; [reflexivity|].
  apply Nat.eqb_neq in E.
  pose proof (Nat.mod_upper_bound k (length x) E).
  rewrite length_app, length_skipn, length_firstn. lia.
Qed.

Lemma nth_roll (x : list A) (k j : nat) (d : A) :
  j < length x ->
  nth j (roll x k) d
  = nth ((j + (length x - k mod length x)) mod length x) x d.
Proof.
  intros Hj. unfold roll.
  destruct (length x =? 0) eqn:E; [apply Nat.eqb_eq in E; lia|].
  apply Nat.eqb_neq in E.
  pose proof (Nat.mod_upper_bound k (length x) E) as Hs.
  set (s := k mod length x) in *.
  destruct (Nat.lt_ge_cases j s) as [Hlt|Hge].
  - rewrite app_nth1 by (rewrite length_skipn; lia).
    rewrite nth_skipn, Nat.mod_small by lia.
    f_equal. lia.
  - rewrite app_nth2 by (rewrite length_skipn; lia).
    rewrite length_skipn, nth_firstn.
    replace (j - (length x - (length x - s))) with (j - s) by lia.
    destruct (Nat.ltb_spec (j - s) (length x - s)); [|lia].
    replace (j + (length x - s)) with (j - s + 1 * length x) by lia.
    rewrite Nat.Div0.mod_add, Nat.mod_small by lia. reflexivity.
Qed.

Lemma roll_0 (x : list A) : roll x 0 = x.
Proof.
  unfold roll. destruct (length x =? 0) eqn:E; [reflexivity|].
  apply Nat.eqb_neq in E.
  rewrite Nat.Div0.mod_0_l, Nat.sub_0_r, skipn_all, firstn_all.
  reflexivity.
Qed.
End Tiling.

Lemma tiles_cover (n d : nat) : 1 <= d -> n < (n / d + 1) * d.
Proof.
  intros Hd.
  pose proof (Nat.div_mod_eq n d) as E.
  pose proof (Nat.mod_upper_bound n d ltac:(lia)) as Hm.
  lia.
Qed.

(** Tiling the rolled parameters and truncating gives the cyclic tiling of
    the specification. *)
Lemma firstn_tile_roll (k n : nat) (params : list R) :
  1 <= length params ->
  firstn n (tile (roll params k) (n / length params + 1))
  = cyclic_tiling k n params.
Proof.
  intros Hd.
  pose proof (tiles_cover n (length params) Hd) as Hcover.
  assert (Hlen : length (tile (roll params k) (n / length params + 1))
                 = (n / length params + 1) * length params)
    by now rewrite length_tile, length_roll.
  apply (nth_ext _ _ 0%R 0%R).
  - unfold cyclic_tiling.
    rewrite length_firstn, Hlen, length_map, length_seq. lia.
  - intros i Hi. rewrite length_firstn, Hlen in Hi.
    assert (Hin : i < n) by lia.
    rewrite nth_firstn.
    destruct (Nat.ltb_spec i n); [|lia].
    rewrite nth_tile by (rewrite length_roll; lia).
    rewrite length_roll.
    rewrite nth_roll by (apply Nat.mod_upper_bound; lia).
    unfold cyclic_tiling.
    set (g := fun i => rotated_entry k params (i mod length params)).
    rewrite (nth_indep (map g (seq 0 n)) 0%R (g 0))
      by (rewrite length_map, length_seq; exact Hin).
    rewrite (map_nth g).
    rewrite seq_nth by exact Hin. reflexivity.
Qed.

Lemma firstn_tile (n : nat) (params : list R) :
  1 <= length params ->
  firstn n (tile params (n / length params + 1)) = cyclic_tiling 0 n params.
Proof.
  intros Hd. rewrite <- (firstn_tile_roll 0 n params Hd), roll_0.
  reflexivity.
Qed.

Lemma length_cyclic_tiling (k n : nat) (params : list R) :
  length (cyclic_tiling k n params) = n.
Proof. unfold cyclic_tiling. now rewrite length_map, length_seq. Qed.

(** C6: for [1 <= d <= nz], [scal_fun params] is the Euclidean norm of the
    solution of the system whose diagonals and right-hand side are the
    cyclic tilings of [params] rotated by 0, 1, 2 and 3, of length [nz],
    offset by 0.5, 2, 0.5 and nothing. *)
Theorem scal_fun_assembles (params : list R) :
  1 <= length params <= nz ->
  exists x,
    tridiag_solve (offset_by 0.5 (cyclic_tiling 0 nz params))
                  (offset_by 2 (cyclic_tiling 1 nz params))
                  (offset_by 0.5 (cyclic_tiling 2 nz params))
                  (cyclic_tiling 3 nz params)
    = Ok x
    /\ scal_fun params = Ok (norm x).
Proof.
  intros [Hd _].
  destruct (tridiag_solve_spec nz
              (offset_by 0.5 (cyclic_tiling 0 nz params))
              (offset_by 2 (cyclic_tiling 1 nz params))
              (offset_by 0.5 (cyclic_tiling 2 nz params))
              (cyclic_tiling 3 nz params))
    as (fs & qs & x & _ & _ & Hx & _);
    unfold offset_by; rewrite ?length_map, ?length_cyclic_tiling;
    try reflexivity; [unfold nz; lia|].
  exists x. split; [exact Hx|].
  unfold scal_fun.
  destruct (length params =? 0) eqn:E; [apply Nat.eqb_eq in E; lia|].
  cbv zeta.
  rewrite (firstn_tile nz params Hd), !(firstn_tile_roll _ nz params Hd).
  unfold offset_by in Hx. rewrite Hx. reflexivity.
Qed.

Lemma scal_fun_assembles_witness :
  exists x,
    tridiag_solve (offset_by 0.5 (cyclic_tiling 0 nz [1; 2; 3]%R))
                  (offset_by 2 (cyclic_tiling 1 nz [1; 2; 3]%R))
                  (offset_by 0.5 (cyclic_tiling 2 nz [1; 2; 3]%R))
                  (cyclic_tiling 3 nz [1; 2; 3]%R)
    = Ok x
    /\ scal_fun [1; 2; 3]%R = Ok (norm x).
Proof.
  apply (scal_fun_assembles [1; 2; 3]%R). unfold nz. cbn. lia.
Defined.

Example cyclic_tiling_shift_1 :
  cyclic_tiling 1 7 [1; 2; 3]%R = [3; 1; 2; 3; 1; 2; 3]%R.
Proof. reflexivity. Qed.

Example roll_shift_1 : roll [1; 2; 3]%R 1 = [3; 1; 2]%R.
Proof. reflexivity. Qed.

Example roll_shift_3_of_5 : roll [1; 2; 3; 4; 5] 3 = [3; 4; 5; 1; 2].
Proof. reflexivity. Qed.

Example scal_fun_empty : scal_fun [] = Raise ZeroDivisionError.
Proof. reflexivity. Qed.

(** ** Outcomes of the solver *)

Section Outcomes.
Context {T : Type} `{Scalar T}.

Lemma forward_pass_ok_inv (a b c f fs qs : list T) :
  forward_pass a b c f = Ok (fs, qs) ->
  1 <= length a /\ length b = length a /\ length c = length a
  /\ length f = length a.
Proof.
  unfold forward_pass.
  destruct f as [|f0 tf]; [discriminate|].
  destruct b as [|b0 tb]; [discriminate|].
  destruct c as [|c0 tc]; [discriminate|].
  cbn [getitem_first bind]. unfold stack. cbn [forallb].
  destruct (length (b0 :: tb) =? length a) eqn:Eb; [|discriminate].
  destruct (length (c0 :: tc) =? length a) eqn:Ec; [|discriminate].
  destruct (length (f0 :: tf) =? length a) eqn:Ef; [|discriminate].
  apply Nat.eqb_eq in Eb, Ec, Ef. intros _. cbn in *. lia.
Qed.

Lemma forward_pass_shape_error (a b c f : list T) :
  f <> [] -> b <> [] -> c <> [] ->
  ~ (length b = length a /\ length c = length a /\ length f = length a) ->
  forward_pass a b c f = Raise ValueError.
Proof.
  intros Hf Hb Hc Hne. unfold forward_pass.
  destruct f as [|f0 tf]; [congruence|].
  destruct b as [|b0 tb]; [congruence|].
  destruct c as [|c0 tc]; [congruence|].
  cbn [getitem_first bind]. unfold stack. cbn [forallb].
  destruct (length (b0 :: tb) =? length a) eqn:Eb; [|reflexivity].
  destruct (length (c0 :: tc) =? length a) eqn:Ec; [|reflexivity].
  destruct (length (f0 :: tf) =? length a) eqn:Ef; [|reflexivity].
  apply Nat.eqb_eq in Eb, Ec, Ef. tauto.
Qed.

Lemma forward_pass_index_error (a b c f : list T) :
  f = [] \/ b = [] \/ c = [] -> forward_pass a b c f = Raise IndexError.
Proof.
  unfold forward_pass.
  intros [E|[E|E]]; subst; [reflexivity| |].
  - destruct f; reflexivity.
  - destruct f; [reflexivity|]. destruct b; reflexivity.
Qed.

Lemma tridiag_solve_raise (a b c f : list T) (e : error) :
  forward_pass a b c f = Raise e -> tridiag_solve a b c f = Raise e.
Proof. unfold tridiag_solve. now intros ->. Qed.

Lemma shape_cases (a b c f : list T) :
  (f = [] \/ b = [] \/ c = [])
  \/ (f <> [] /\ b <> [] /\ c <> []
      /\ ~ (length b = length a /\ length c = length a
            /\ length f = length a))
  \/ (1 <= length a /\ length b = length a /\ length c = length a
      /\ length f = length a).
Proof.
  destruct f as [|f0 tf]; [auto|].
  destruct b as [|b0 tb]; [auto|].
  destruct c as [|c0 tc]; [auto|].
  destruct (Nat.eq_dec (length (b0 :: tb)) (length a)) as [Eb|Eb];
    [|right; left; repeat split; try discriminate; tauto].
  destruct (Nat.eq_dec (length (c0 :: tc)) (length a)) as [Ec|Ec];
    [|right; left; repeat split; try discriminate; tauto].
  destruct (Nat.eq_dec (length (f0 :: tf)) (length a)) as [Ef|Ef];
    [|right; left; repeat split; try discriminate; tauto].
  right; right. cbn in *. lia.
Qed.
End Outcomes.

(** X1: the solver returns a solution exactly when the four arrays have one
    common length and that length is at least 1. *)
Theorem tridiag_solve_ok_iff (T : Type) (ST : Scalar T) (a b c f : list T) :
  (exists x, tridiag_solve a b c f = Ok x)
  <-> (1 <= length a /\ length b = length a /\ length c = length a
       /\ length f = length a).
Proof.
  split.
  - intros [x Hx]. unfold tridiag_solve in Hx.
    destruct (forward_pass a b c f) as [[fs qs]|e] eqn:Hfw; [|discriminate].
    exact (forward_pass_ok_inv _ _ _ _ _ _ Hfw).
  - intros (Hn & Hb & Hc & Hf).
    destruct (tridiag_solve_spec (length a) a b c f Hn eq_refl Hb Hc Hf)
      as (fs & qs & x & _ & _ & Hx & _).
    exists x. exact Hx.
Qed.

(** X2: which error the solver raises: [IndexError] exactly when [f], [b]
    or [c] is empty, [ValueError] exactly when these three are non-empty
    and the four lengths are not all equal, and never
    [ZeroDivisionError]. *)
Theorem tridiag_solve_errors (T : Type) (ST : Scalar T) (a b c f : list T) :
  (tridiag_solve a b c f = Raise IndexError
   <-> (f = [] \/ b = [] \/ c = []))
  /\ (tridiag_solve a b c f = Raise ValueError
      <-> (f <> [] /\ b <> [] /\ c <> []
           /\ ~ (length b = length a /\ length c = length a
                 /\ length f = length a)))
  /\ tridiag_solve a b c f <> Raise ZeroDivisionError.
Proof.
  destruct (shape_cases a b c f) as [Hi|[Hv|Hok]].
  - pose proof (tridiag_solve_raise _ _ _ _ _
                  (forward_pass_index_error a b c f Hi)) as E.
    rewrite E. repeat split; try discriminate; auto.
    intros (Hf & Hb & Hc & _). tauto.
  - destruct Hv as (Hf & Hb & Hc & Hne).
    pose proof (tridiag_solve_raise _ _ _ _ _
                  (forward_pass_shape_error a b c f Hf Hb Hc Hne)) as E.
    rewrite E. repeat split; try discriminate; auto. tauto.
  - destruct Hok as (Hn & Hb & Hc & Hf).
    destruct (tridiag_solve_spec (length a) a b c f Hn eq_refl Hb Hc Hf)
      as (fs & qs & x & _ & _ & Hx & _).
    rewrite Hx. repeat split; try discriminate.
    + intros [E|[E|E]]; subst; cbn in *; lia.
    + intros (_ & _ & _ & Hne). tauto.
Qed.

(** ** The recurrences determine the passes *)

Section Determined.
Context {T : Type} `{Scalar T}.

(** Sequences that obey the seed and the forward recurrence are the ones
    the forward pass returns. *)
Lemma forward_pass_unique (d : T) (n : nat) (a b c f F Q : list T) :
  1 <= n ->
  length a = n -> length b = n -> length c = n -> length f = n ->
  length F = n -> length Q = n ->
  nth 0 F d = div (nth 0 f d) (nth 0 b d) ->
  nth 0 Q d = div (neg (nth 0 c d)) (nth 0 b d) ->
  (forall i, 1 <= i < n ->
     let cff :=
       div one (add (nth i b d) (mul (nth i a d) (nth (i - 1) Q d))) in
     nth i F d = mul cff (sub (nth i f d) (mul (nth i a d) (nth (i - 1) F d)))
     /\ nth i Q d = mul (neg cff) (nth i c d)) ->
  forward_pass a b c f = Ok (F, Q).
Proof.
  intros Hn La Lb Lc Lf LF LQ HF0 HQ0 Hstep.
  destruct (forward_pass_spec n a b c f Hn La Lb Lc Lf)
    as (fs & qs & Hfw & Lfs & Lqs & Hseed & Hrec).
  specialize (Hseed d). specialize (Hrec d).
  assert (Hall : forall i, i < n ->
            nth i fs d = nth i F d /\ nth i qs d = nth i Q d).
  { induction i as [|j IH]; intros Hi.
    - destruct Hseed as [-> ->]. now rewrite HF0, HQ0.
    - destruct (IH ltac:(lia)) as [IHf IHq].
      destruct (Hrec (S j) ltac:(lia)) as [Ef Eq].
      destruct (Hstep (S j) ltac:(lia)) as [EF EQ].
      cbn zeta in Ef, Eq, EF, EQ.
      replace (S j - 1) with j in * by lia.
      rewrite Ef, Eq, EF, EQ, IHf, IHq. split; reflexivity. }
  assert (fs = F) as <-
      by (apply (nth_ext fs F d d); [lia|]; intros i Hi; apply Hall; lia).
  assert (qs = Q) as <-
      by (apply (nth_ext qs Q d d); [lia|]; intros i Hi; apply Hall; lia).
  exact Hfw.
Qed.

(** A sequence that obeys the backward recurrence is the one the backward
    pass returns. *)
Lemma backward_pass_unique (d : T) (n : nat) (fs qs z : list T) :
  1 <= n -> length fs = n -> length qs = n -> length z = n ->
  nth (n - 1) z d = nth (n - 1) fs d ->
  (forall i, i + 1 < n ->
     nth i z d = add (nth i fs d) (mul (nth i qs d) (nth (i + 1) z d))) ->
  backward_pass fs qs = Ok z.
Proof.
  intros Hn Lfs Lqs Lz Hzl Hz.
  destruct (backward_pass_spec n fs qs Hn Lfs Lqs)
    as (x & Hbw & Lx & Hlast & Hback).
  specialize (Hlast d). specialize (Hback d).
  assert (Hall : forall k, k < n -> nth (n - 1 - k) x d = nth (n - 1 - k) z d).
  { induction k as [|k IH]; intros Hk.
    - now rewrite Nat.sub_0_r, Hlast, Hzl.
    - specialize (IH ltac:(lia)).
      rewrite (Hback (n - 1 - S k)), (Hz (n - 1 - S k)) by lia.
      replace (n - 1 - S k + 1) with (n - 1 - k) by lia.
      now rewrite IH. }
  assert (x = z) as <-.
  { apply (nth_ext x z d d); [lia|].
    intros i Hi. replace i with (n - 1 - (n - 1 - i)) by lia.
    apply Hall. lia. }
  exact Hbw.
Qed.

Lemma tridiag_solve_of_passes (a b c f fs qs x : list T) :
  forward_pass a b c f = Ok (fs, qs) -> backward_pass fs qs = Ok x ->
  tridiag_solve a b c f = Ok x.
Proof. intros Hfw Hbw. unfold tridiag_solve. now rewrite Hfw. Qed.
End Determined.

Lemma forward_pass_same_q (T : Type) (ST : Scalar T)
    (a b c f f' fs qs fs' qs' : list T) :
  forward_pass a b c f = Ok (fs, qs) ->
  forward_pass a b c f' = Ok (fs', qs') ->
  qs = qs'.
Proof.
  intros Hfw Hfw'.
  destruct (forward_pass_ok_inv _ _ _ _ _ _ Hfw) as (Hn & Lb & Lc & Lf).
  destruct (forward_pass_ok_inv _ _ _ _ _ _ Hfw') as (_ & _ & _ & Lf').
  pose (d := @one T ST).
  destruct (forward_pass_spec (length a) a b c f Hn eq_refl Lb Lc Lf)
    as (gs & rs & E & _ & Lqs & Hseed & Hrec).
  rewrite Hfw in E. inversion E; subst gs rs; clear E.
  destruct (forward_pass_spec (length a) a b c f' Hn eq_refl Lb Lc Lf')
    as (gs & rs & E & _ & Lqs' & Hseed' & Hrec').
  rewrite Hfw' in E. inversion E; subst gs rs; clear E.
  specialize (Hseed d). specialize (Hseed' d).
  specialize (Hrec d). specialize (Hrec' d).
  apply (nth_ext qs qs' d d); [lia|]. rewrite Lqs.
  induction n as [|j IH]; intros Hi.
  - destruct Hseed as [_ ->], Hseed' as [_ ->]. reflexivity.
  - destruct (Hrec (S j) ltac:(lia)) as [_ Eq].
    destruct (Hrec' (S j) ltac:(lia)) as [_ Eq'].
    cbn zeta in Eq, Eq'. replace (S j - 1) with j in * by lia.
    rewrite Eq, Eq', (IH ltac:(lia)). reflexivity.
Qed.

Section Relations.
Context {T : Type} `{Scalar T}.

Lemma solve_rels (d : T) (n : nat) (a b c f x : list T) :
  1 <= n ->
  length a = n -> length b = n -> length c = n -> length f = n ->
  tridiag_solve a b c f = Ok x ->
  exists fs qs,
    forward_pass a b c f = Ok (fs, qs)
    /\ forward_rel d n a b c f fs qs
    /\ backward_rel d n fs qs x.
Proof.
  intros Hn La Lb Lc Lf Hx.
  destruct (forward_pass_spec n a b c f Hn La Lb Lc Lf)
    as (fs & qs & Hfw & Lfs & Lqs & Hseed & Hrec).
  destruct (backward_pass_spec n fs qs Hn Lfs Lqs)
    as (x' & Hbw & Lx & Hlast & Hback).
  unfold tridiag_solve in Hx. rewrite Hfw in Hx. cbn [bind] in Hx.
  rewrite Hbw in Hx. inversion Hx; subst x'; clear Hx.
  exists fs, qs. split; [exact Hfw|].
  split.
  - split; [exact Lfs|]. split; [exact Lqs|].
    split; [apply Hseed|]. split; [apply Hseed|].
    intros i Hi. exact (Hrec d i Hi).
  - split; [exact Lx|]. split; [apply Hlast|].
    intros i Hi. exact (Hback d i Hi).
Qed.

Lemma forward_rels (d : T) (n : nat) (a b c f fs qs : list T) :
  1 <= n ->
  length a = n -> length b = n -> length c = n -> length f = n ->
  forward_pass a b c f = Ok (fs, qs) ->
  forward_rel d n a b c f fs qs.
Proof.
  intros Hn La Lb Lc Lf Hfw.
  destruct (forward_pass_spec n a b c f Hn La Lb Lc Lf)
    as (fs' & qs' & Hfw' & Lfs & Lqs & Hseed & Hrec).
  rewrite Hfw in Hfw'. inversion Hfw'; subst fs' qs'; clear Hfw'.
  split; [exact Lfs|]. split; [exact Lqs|].
  split; [apply Hseed|]. split; [apply Hseed|].
  intros i Hi. exact (Hrec d i Hi).
Qed.

Lemma solve_of_rels (d : T) (n : nat) (a b c f fs qs x : list T) :
  1 <= n ->
  length a = n -> length b = n -> length c = n -> length f = n ->
  forward_rel d n a b c f fs qs -> backward_rel d n fs qs x ->
  forward_pass a b c f = Ok (fs, qs) /\ tridiag_solve a b c f = Ok x.
Proof.
  intros Hn La Lb Lc Lf (Lfs & Lqs & Hf0 & Hq0 & Hstep) (Lx & Hlast & Hback).
  assert (Hfw : forward_pass a b c f = Ok (fs, qs))
    by (apply (forward_pass_unique d n); assumption).
  split; [exact Hfw|].
  apply (tridiag_solve_of_passes _ _ _ _ _ _ _ Hfw).
  apply (backward_pass_unique d n); assumption.
Qed.
End Relations.

(** X3: the multipliers [q] of the forward pass depend on the three
    diagonals only: two right-hand sides give the same [q]. *)
Theorem forward_pass_q_independent_of_rhs (T : Type) (ST : Scalar T)
    (a b c f f' fs qs fs' qs' : list T) :
  forward_pass a b c f = Ok (fs, qs) ->
  forward_pass a b c f' = Ok (fs', qs') ->
  qs = qs'.
Proof. apply forward_pass_same_q. Qed.

Lemma forward_pass_q_independent_of_rhs_witness :
  [(- 1 / 2)%R; (- (1 / (2 + 1 * (- 1 / 2))) * 0)%R]
  = [(- 1 / 2)%R; (- (1 / (2 + 1 * (- 1 / 2))) * 0)%R].
Proof.
  apply (forward_pass_q_independent_of_rhs R Scalar_R
           [0; 1]%R [2; 2]%R [1; 0]%R [1; 3]%R [5; 7]%R
           [(1 / 2)%R; (1 / (2 + 1 * (- 1 / 2)) * (3 - 1 * (1 / 2)))%R]
           [(- 1 / 2)%R; (- (1 / (2 + 1 * (- 1 / 2))) * 0)%R]
           [(5 / 2)%R; (1 / (2 + 1 * (- 1 / 2)) * (7 - 1 * (5 / 2)))%R]
           [(- 1 / 2)%R; (- (1 / (2 + 1 * (- 1 / 2))) * 0)%R]);
    reflexivity.
Defined.


(** ** The solver as a linear map *)

Open Scope R_scope.



Lemma length_vdiv (x y : list R) :
  length x = length y -> length (vdiv x y) = length x.
Proof.
  intros E. unfold vdiv. rewrite length_map, length_combine. lia.
Qed.




Lemma nth_vdiv (x : list R) :
  forall y i, length x = length y ->
    nth i (vdiv x y) 0 = nth i x 0 / nth i y 0.
Proof.
  induction x as [|u x IH]; intros [|v y] [|i] E; try discriminate;
    cbn; try (unfold Rdiv; ring).
  apply IH. cbn in E. lia.
Qed.


(** With no zero pivot the sequence of the backward recurrence satisfies
    every row of the system. *)
Lemma rows_of_pivots (n : nat) (a b c f fs qs x : list R) :
  (1 <= n)%nat ->
  length b = n ->
  forward_rel 0 n a b c f fs qs -> backward_rel 0 n fs qs x ->
  nonzero_pivots a b qs ->
  forall i, (i < n)%nat -> tridiag_row a b c x i = nth i f 0.
Proof.
  intros Hn Lb (Lfs & Lqs & Hf0 & Hq0 & Hrec) (Lx & Hlast & Hback)
    [Hb0 Hpiv].
  rewrite Lb in Hpiv. real_ops.
  assert (Hx : forall i, (i < n)%nat ->
                 nth i x 0 = nth i fs 0 + nth i qs 0 * nth (S i) x 0).
  { intros i Hi. destruct (Nat.eq_dec (i + 1) n) as [E|E].
    - rewrite (nth_overflow x (n := S i)) by lia.
      replace i with (n - 1)%nat by lia. rewrite Hlast. ring.
    - replace (S i) with (i + 1)%nat by lia. apply Hback. lia. }
  intros i Hi. unfold tridiag_row.
  destruct i as [|j].
  - rewrite (Hx 0%nat Hi), Hf0, Hq0. field. exact Hb0.
  - specialize (Hpiv (S j) ltac:(lia)).
    destruct (Hrec (S j) ltac:(lia)) as [Ef Eq]. cbn zeta in Ef, Eq.
    replace (S j - 1)%nat with j in * by lia.
    rewrite (Hx j ltac:(lia)), (Hx (S j) Hi), Ef, Eq.
    field. exact Hpiv.
Qed.

(** With no zero pivot a sequence that satisfies every row of the system
    obeys the backward recurrence. *)
Lemma backward_of_rows (n : nat) (a b c f fs qs y : list R) :
  (1 <= n)%nat ->
  length b = n -> length y = n ->
  forward_rel 0 n a b c f fs qs ->
  nonzero_pivots a b qs ->
  (forall i, (i < n)%nat -> tridiag_row a b c y i = nth i f 0) ->
  backward_rel 0 n fs qs y.
Proof.
  intros Hn Lb Ly (Lfs & Lqs & Hf0 & Hq0 & Hrec) [Hb0 Hpiv] Hrows.
  rewrite Lb in Hpiv. real_ops.
  assert (Hy : forall i, (i < n)%nat ->
                 nth i y 0 = nth i fs 0 + nth i qs 0 * nth (S i) y 0).
  { induction i as [|j IH]; intros Hi.
    - pose proof (Hrows 0%nat Hi) as Hrow. unfold tridiag_row in Hrow.
      rewrite Hf0, Hq0, <- Hrow. field. exact Hb0.
    - specialize (IH ltac:(lia)).
      specialize (Hpiv (S j) ltac:(lia)).
      destruct (Hrec (S j) ltac:(lia)) as [Ef Eq]. cbn zeta in Ef, Eq.
      replace (S j - 1)%nat with j in * by lia.
      pose proof (Hrows (S j) Hi) as Hrow. unfold tridiag_row in Hrow.
      rewrite Ef, Eq, <- Hrow, IH. field. exact Hpiv. }
  split; [exact Ly|]. split.
  - rewrite (Hy (n - 1)%nat) by lia.
    rewrite (nth_overflow y (n := S (n - 1))) by lia. ring.
  - intros i Hi. real_ops. replace (i + 1)%nat with (S i) by lia.
    apply Hy. lia.
Qed.



(** X5: with no zero pivot the solution is unique and the solver finds it:
    any [y] of length [n] that satisfies every row of the system is what
    the solver returns. *)
Theorem tridiag_solve_unique (n : nat) (a b c f fs qs y : list R) :
  (1 <= n)%nat ->
  length a = n -> length b = n -> length c = n -> length f = n ->
  forward_pass a b c f = Ok (fs, qs) -> nonzero_pivots a b qs ->
  length y = n ->
  (forall i, (i < n)%nat -> tridiag_row a b c y i = nth i f 0) ->
  tridiag_solve a b c f = Ok y.
Proof.
  intros Hn La Lb Lc Lf Hfw Hpiv Ly Hrows.
  pose proof (forward_rels 0 n a b c f fs qs Hn La Lb Lc Lf Hfw) as Hrel.
  apply (solve_of_rels 0 n a b c f fs qs y); try assumption.
  apply (backward_of_rows n a b c f); assumption.
Qed.

Lemma tridiag_solve_unique_witness :
  tridiag_solve [0; 1] [2; 2] [1; 0] [1; 3] = Ok [-1 / 3; 5 / 3].
Proof.
  apply (tridiag_solve_unique 2 [0; 1] [2; 2] [1; 0] [1; 3]
           [1 / 2; 1 / (2 + 1 * (- 1 / 2)) * (3 - 1 * (1 / 2))]
           [- 1 / 2; - (1 / (2 + 1 * (- 1 / 2))) * 0]);
    try reflexivity; try lia.
  - split; [cbn; lra|].
    intros i Hi. cbn in Hi. assert (i = 1%nat) as -> by lia. cbn. lra.
  - intros [|[|i]] Hi; [| |lia]; unfold tridiag_row; cbn; lra.
Defined.



(** X7: on a diagonal system (sub-diagonal zero from index 1 on,
    super-diagonal zero up to index [n-2], no zero on the diagonal) the
    solver returns [f[i] / b[i]] at every index. *)
Theorem tridiag_solve_diagonal (n : nat) (a b c f : list R) :
  (1 <= n)%nat ->
  length a = n -> length b = n -> length c = n -> length f = n ->
  (forall i, (1 <= i < n)%nat -> nth i a 0 = 0) ->
  (forall i, (i + 1 < n)%nat -> nth i c 0 = 0) ->
  (forall i, (i < n)%nat -> nth i b 0 <> 0) ->
  tridiag_solve a b c f = Ok (vdiv f b).
Proof.
  intros Hn La Lb Lc Lf Ha Hc Hb.
  assert (Lfb : length f = length b) by lia.
  assert (Lcb : length (map Ropp c) = length b)
    by (rewrite length_map; lia).
  assert (Hnc : forall i, nth i (map Ropp c) 0 = - nth i c 0).
  { intros i. rewrite <- Ropp_0 at 1. apply map_nth. }
  apply (solve_of_rels 0 n a b c f (vdiv f b) (vdiv (map Ropp c) b));
    try assumption.
  - split; [rewrite length_vdiv; lia|].
    split; [rewrite length_vdiv, length_map; lia|]. real_ops.
    rewrite !nth_vdiv, !Hnc by assumption.
    split; [reflexivity|]. split; [reflexivity|].
    intros i Hi. cbn zeta.
    rewrite !nth_vdiv, !Hnc, (Ha i Hi) by assumption.
    pose proof (Hb i ltac:(lia)) as Hbi.
    assert (Hp : nth i b 0
                 + 0 * (- nth (i - 1) c 0 / nth (i - 1) b 0) <> 0)
      by (intros E; apply Hbi; lra).
    split; field; repeat split; try assumption; apply Hb; lia.
  - split; [rewrite length_vdiv; lia|]. real_ops.
    split; [reflexivity|].
    intros i Hi. rewrite !nth_vdiv, !Hnc, (Hc i Hi) by assumption.
    pose proof (Hb i ltac:(lia)) as Hbi. field.
    repeat split; try assumption; apply Hb; lia.
Qed.

Lemma tridiag_solve_diagonal_witness :
  tridiag_solve [7; 0] [2; 4] [0; 9] [1; 3] = Ok (vdiv [1; 3] [2; 4]).
Proof.
  apply (tridiag_solve_diagonal 2); try reflexivity; try lia.
  - intros i Hi. assert (i = 1%nat) as -> by lia. reflexivity.
  - intros i Hi. assert (i = 0%nat) as -> by lia. reflexivity.
  - intros [|[|i]] Hi; cbn; try lra. lia.
Defined.

(** ** Diagonal dominance *)

Lemma dominant_seed (a b c : R) :
  Rabs a + Rabs c < Rabs b -> b <> 0 /\ Rabs (- c / b) < 1.
Proof.
  intros Hd. pose proof (Rabs_pos a). pose proof (Rabs_pos c).
  assert (Hne : b <> 0) by (intros E; rewrite E, Rabs_R0 in Hd; lra).
  split; [exact Hne|].
  unfold Rdiv. rewrite Rabs_mult, Rabs_Ropp, Rabs_inv.
  apply (Rmult_lt_reg_l (Rabs b)); [lra|].
  rewrite (Rmult_comm (Rabs c)), <- Rmult_assoc, Rinv_r, Rmult_1_l,
    Rmult_1_r; [lra|].
  apply Rabs_no_R0. exact Hne.
Qed.

Lemma dominant_step (a b c q : R) :
  Rabs a + Rabs c < Rabs b -> Rabs q < 1 ->
  b + a * q <> 0 /\ Rabs (- (1 / (b + a * q)) * c) < 1.
Proof.
  intros Hd Hq.
  assert (Hp : Rabs c < Rabs (b + a * q)).
  { pose proof (Rabs_triang_inv b (- (a * q))) as Ht.
    replace (b - - (a * q)) with (b + a * q) in Ht by ring.
    rewrite Rabs_Ropp, Rabs_mult in Ht.
    pose proof (Rabs_pos a). pose proof (Rabs_pos q). nra. }
  pose proof (Rabs_pos c) as Hc.
  assert (Hne : b + a * q <> 0).
  { intros E. rewrite E, Rabs_R0 in Hp. lra. }
  split; [exact Hne|].
  rewrite Rabs_mult, Rabs_Ropp. unfold Rdiv. rewrite Rmult_1_l, Rabs_inv.
  apply (Rmult_lt_reg_l (Rabs (b + a * q))); [lra|].
  rewrite <- Rmult_assoc, Rinv_r, Rmult_1_l, Rmult_1_r; [exact Hp|].
  apply Rabs_no_R0. exact Hne.
Qed.

Lemma dominant_pivots (n : nat) (a b c f fs qs : list R) :
  (1 <= n)%nat -> length b = n ->
  diag_dominant a b c ->
  forward_rel 0 n a b c f fs qs ->
  nonzero_pivots a b qs
  /\ forall i, (i < n)%nat -> Rabs (nth i qs 0) < 1.
Proof.
  intros Hn Lb Hdom (Lfs & Lqs & Hf0 & Hq0 & Hrec). real_ops.
  unfold diag_dominant in Hdom. rewrite Lb in Hdom.
  assert (Hall : forall i, (i < n)%nat ->
            Rabs (nth i qs 0) < 1
            /\ ((1 <= i)%nat ->
                nth i b 0 + nth i a 0 * nth (i - 1) qs 0 <> 0)).
  { induction i as [|j IH]; intros Hi.
    - split; [|lia]. rewrite Hq0. apply (dominant_seed (nth 0 a 0)).
      apply Hdom. lia.
    - destruct (IH ltac:(lia)) as [IHq _].
      destruct (Hrec (S j) ltac:(lia)) as [_ Eq]. cbn zeta in Eq.
      replace (S j - 1)%nat with j in * by lia.
      destruct (dominant_step (nth (S j) a 0) (nth (S j) b 0)
                  (nth (S j) c 0) (nth j qs 0) (Hdom (S j) Hi) IHq)
        as [Hne Hlt].
      rewrite Eq. split; [exact Hlt|]. intros _. exact Hne. }
  split.
  - split.
    + apply (dominant_seed (nth 0 a 0) (nth 0 b 0) (nth 0 c 0)).
      apply Hdom. lia.
    + rewrite Lb. intros i Hi. apply Hall; lia.
  - intros i Hi. apply Hall. exact Hi.
Qed.

(** X8: on a strictly diagonally dominant system
    ([|a[i]| + |c[i]| < |b[i]|] in every row) the forward pass meets no
    zero pivot and every multiplier [q[i]] has absolute value below 1. *)
Theorem diag_dominant_forward (n : nat) (a b c f fs qs : list R) :
  (1 <= n)%nat ->
  length a = n -> length b = n -> length c = n -> length f = n ->
  diag_dominant a b c ->
  forward_pass a b c f = Ok (fs, qs) ->
  nonzero_pivots a b qs
  /\ forall i, (i < n)%nat -> Rabs (nth i qs 0) < 1.
Proof.
  intros Hn La Lb Lc Lf Hdom Hfw.
  apply (dominant_pivots n a b c f fs qs Hn Lb Hdom).
  apply forward_rels; assumption.
Qed.

Lemma diag_dominant_forward_witness :
  nonzero_pivots [0; 1] [3; 3]
    [- 1 / 3; - (1 / (3 + 1 * (- 1 / 3))) * 0]
  /\ forall i, (i < 2)%nat ->
       Rabs (nth i [- 1 / 3; - (1 / (3 + 1 * (- 1 / 3))) * 0] 0) < 1.
Proof.
  apply (diag_dominant_forward 2 [0; 1] [3; 3] [1; 0] [1; 3]
           [1 / 3; 1 / (3 + 1 * (- 1 / 3)) * (3 - 1 * (1 / 3))]);
    try reflexivity; try lia.
  intros [|[|i]] Hi; cbn in Hi; try lia; cbn;
    rewrite ?Rabs_R0, ?Rabs_R1, (Rabs_pos_eq 3) by lra; lra.
Defined.

(** X9: on a strictly diagonally dominant system the solver returns a
    solution: an array [x] of length [n] that satisfies every row. *)
Theorem diag_dominant_solves (n : nat) (a b c f : list R) :
  (1 <= n)%nat ->
  length a = n -> length b = n -> length c = n -> length f = n ->
  diag_dominant a b c ->
  exists x,
    tridiag_solve a b c f = Ok x
    /\ length x = n
    /\ forall i, (i < n)%nat -> tridiag_row a b c x i = nth i f 0.
Proof.
  intros Hn La Lb Lc Lf Hdom.
  destruct (tridiag_solve_spec n a b c f Hn La Lb Lc Lf)
    as (fs & qs & x & Hfw & Hbw & Hx & Lfs & Lqs & Lx).
  destruct (solve_rels 0 n a b c f x Hn La Lb Lc Lf Hx)
    as (fs' & qs' & Hfw' & Hfrel & Hbrel).
  exists x. split; [exact Hx|]. split; [exact Lx|].
  apply (rows_of_pivots n a b c f fs' qs' x Hn Lb Hfrel Hbrel).
  apply (dominant_pivots n a b c f fs' qs' Hn Lb Hdom Hfrel).
Qed.

Lemma diag_dominant_solves_witness :
  exists x,
    tridiag_solve [0; 1] [3; 3] [1; 0] [1; 3] = Ok x
    /\ length x = 2%nat
    /\ forall i, (i < 2)%nat ->
         tridiag_row [0; 1] [3; 3] [1; 0] x i = nth i [1; 3] 0.
Proof.
  apply (diag_dominant_solves 2); try reflexivity; try lia.
  intros [|[|i]] Hi; cbn in Hi; try lia; cbn;
    rewrite ?Rabs_R0, ?Rabs_R1, (Rabs_pos_eq 3) by lra; lra.
Defined.

(** ** Exact and special-value arithmetic agree away from zero pivots *)





(** ** More on the scalar workload *)


Lemma scal_fun_nonempty (params : list R) :
  (1 <= length params)%nat ->
  exists x,
    tridiag_solve (offset_by 0.5 (cyclic_tiling 0 nz params))
                  (offset_by 2 (cyclic_tiling 1 nz params))
                  (offset_by 0.5 (cyclic_tiling 2 nz params))
                  (cyclic_tiling 3 nz params)
    = Ok x
    /\ length x = nz
    /\ scal_fun params = Ok (norm x).
Proof.
  intros Hd.
  destruct (tridiag_solve_spec nz
              (offset_by 0.5 (cyclic_tiling 0 nz params))
              (offset_by 2 (cyclic_tiling 1 nz params))
              (offset_by 0.5 (cyclic_tiling 2 nz params))
              (cyclic_tiling 3 nz params))
    as (fs & qs & x & _ & _ & Hx & _ & _ & Lx);
    unfold offset_by; rewrite ?length_map, ?length_cyclic_tiling;
    try reflexivity; [unfold nz; lia|].
  exists x. split; [exact Hx|]. split; [exact Lx|].
  unfold scal_fun.
  destruct (length params =? 0)%nat eqn:E; [apply Nat.eqb_eq in E; lia|].
  cbv zeta.
  rewrite (firstn_tile nz params Hd), !(firstn_tile_roll _ nz params Hd).
  unfold offset_by in Hx. rewrite Hx. reflexivity.
Qed.


Lemma cyclic_tiling_agree (k : nat) (params params' : list R) :
  (k <= 3)%nat ->
  length params = length params' ->
  (forall i, (i < nz \/ length params <= i + 3)%nat ->
     nth i params 0 = nth i params' 0) ->
  cyclic_tiling k nz params = cyclic_tiling k nz params'.
Proof.
  intros Hk Hl Hagree. unfold cyclic_tiling.
  apply map_ext_in. intros i Hi. apply in_seq in Hi.
  unfold rotated_entry. rewrite <- Hl.
  set (d := length params) in *.
  destruct (Nat.eq_dec d 0) as [Hd0|Hd0].
  - rewrite Hd0. cbn. apply Hagree. unfold nz. lia.
  - apply Hagree.
    pose proof (Nat.mod_upper_bound (i mod d + (d - k mod d)) d Hd0) as Hj.
    destruct (Nat.le_gt_cases d nz) as [Hle|Hgt]; [left; lia|].
    assert (Hlt : (i < d)%nat) by lia.
    assert (Hkd : (k < d)%nat) by (unfold nz in Hgt; lia).
    rewrite (Nat.mod_small i d Hlt), (Nat.mod_small k d Hkd).
    destruct (Nat.le_gt_cases k i) as [Hki|Hki].
    + left. replace (i + (d - k))%nat with (i - k + 1 * d)%nat by lia.
      rewrite Nat.Div0.mod_add, Nat.mod_small by lia. lia.
    + right. rewrite Nat.mod_small by lia. lia.
Qed.

(** X12: [scal_fun] reads only the first [nz] and the last three entries
    of its parameter vector: two vectors of one length that agree there
    give the same result. *)
Theorem scal_fun_ignores_middle (params params' : list R) :
  length params = length params' ->
  (forall i, (i < nz \/ length params <= i + 3)%nat ->
     nth i params 0 = nth i params' 0) ->
  scal_fun params = scal_fun params'.
Proof.
  intros Hl Hagree.
  destruct params as [|p params], params' as [|p' params'];
    try discriminate; [reflexivity|].
  destruct (scal_fun_nonempty (p :: params)) as (x & Hx & _ & ->);
    [cbn; lia|].
  destruct (scal_fun_nonempty (p' :: params')) as (x' & Hx' & _ & ->);
    [cbn; lia|].
  rewrite !(cyclic_tiling_agree _ (p :: params) (p' :: params'))
    in Hx by (assumption || lia).
  rewrite Hx in Hx'. inversion Hx'. reflexivity.
Qed.

Lemma scal_fun_ignores_middle_witness :
  scal_fun (repeat 1 100 ++ [5] ++ [2; 3; 4])
  = scal_fun (repeat 1 100 ++ [7] ++ [2; 3; 4]).
Proof.
  apply scal_fun_ignores_middle; [reflexivity|].
  intros i Hi.
  destruct (Nat.eq_dec i 100) as [->|Hne].
  - exfalso. unfold nz in Hi. cbn in Hi. lia.
  - rewrite !app_assoc.
    destruct (Nat.lt_ge_cases i 100) as [Hlt|Hge].
    + rewrite <- !app_assoc.
      rewrite !(app_nth1 (repeat 1 100)) by (rewrite repeat_length; lia).
      reflexivity.
    + rewrite <- !app_assoc.
      rewrite !(app_nth2 (repeat 1 100)) by (rewrite repeat_length; lia).
      rewrite repeat_length.
      destruct (i - 100)%nat as [|m] eqn:E; [lia|reflexivity].
Defined.

(** ** Rotations compose *)

Lemma roll_period {A : Type} (x : list A) (j : nat) :
  roll x (j + length x) = roll x j.
Proof.
  unfold roll. destruct (length x =? 0)%nat; [reflexivity|].
  replace (j + length x)%nat with (j + 1 * length x)%nat by lia.
  now rewrite Nat.Div0.mod_add.
Qed.

Lemma roll_index (D i j k : nat) :
  (D <> 0)%nat ->
  (((i + (D - k mod D)) mod D + (D - j mod D)) mod D
   = (i + (D - (j + k) mod D)) mod D)%nat.
Proof.
  intros HD.
  pose proof (Nat.mod_upper_bound j D HD) as Hj.
  pose proof (Nat.mod_upper_bound k D HD) as Hk.
  rewrite Nat.Div0.add_mod_idemp_l.
  rewrite (Nat.Div0.add_mod j k D).
  set (j' := (j mod D)%nat) in *. set (k' := (k mod D)%nat) in *.
  destruct (Nat.lt_ge_cases (j' + k') D) as [Hlt|Hge].
  - rewrite (Nat.mod_small (j' + k') D Hlt).
    replace (i + (D - k') + (D - j'))%nat
      with (i + (D - (j' + k')) + 1 * D)%nat by lia.
    now rewrite Nat.Div0.mod_add.
  - replace ((j' + k') mod D)%nat with (j' + k' - D)%nat.
    + f_equal. lia.
    + replace (j' + k')%nat with (j' + k' - D + 1 * D)%nat at 2 by lia.
      rewrite Nat.Div0.mod_add, Nat.mod_small by lia. reflexivity.
Qed.

(** X13: rotations compose by adding their shifts, and a shift by a whole
    turn changes nothing: [roll (roll x j) k = roll x (j + k)] and
    [roll x (j + length x) = roll x j]. *)
Theorem roll_compose (A : Type) (x : list A) (j k : nat) :
  roll (roll x j) k = roll x (j + k)
  /\ roll x (j + length x) = roll x j.
Proof.
  split; [|apply roll_period].
  destruct x as [|v x]; [reflexivity|].
  set (l := v :: x).
  assert (HD : length l <> 0%nat) by (cbn; lia).
  apply (nth_ext _ _ v v); [now rewrite !length_roll|].
  intros i Hi. rewrite !length_roll in Hi.
  rewrite nth_roll by (rewrite length_roll; exact Hi).
  rewrite length_roll.
  rewrite nth_roll by (apply Nat.mod_upper_bound; exact HD).
  rewrite nth_roll by exact Hi.
  now rewrite roll_index.
Qed.

(** ** Special values in the right-hand side *)

Lemma nonfinite_div_l (x y : ext) : nonfinite x -> nonfinite (ext_div x y).
Proof.
  destruct x, y; cbn; try contradiction; try exact (fun _ => I);
    intros _; destruct (sign r); exact I.
Qed.

(** Once an entry of the forward sequence [fs] is not finite, no entry of
    the solution is. *)
Lemma nonfinite_spreads (n i0 : nat) (a b c f fs qs x : list ext) :
  forward_rel NaN n a b c f fs qs -> backward_rel NaN n fs qs x ->
  (i0 < n)%nat -> nonfinite (nth i0 fs NaN) ->
  Forall nonfinite x.
Proof.
  intros (Lfs & Lqs & Hf0 & Hq0 & Hrec) (Lx & Hlast & Hback) Hi0 Hnf.
  cbn [div add sub mul neg one Scalar_ext] in *.
  assert (Hup : forall k, (i0 + k < n)%nat ->
                  nonfinite (nth (i0 + k) fs NaN)).
  { induction k as [|k IH]; intros Hk.
    - now rewrite Nat.add_0_r.
    - specialize (IH ltac:(lia)).
      destruct (Hrec (i0 + S k)%nat ltac:(lia)) as [-> _]. cbn zeta.
      replace (i0 + S k - 1)%nat with (i0 + k)%nat by lia.
      auto with nonfinite. }
  assert (Hfl : nonfinite (nth (n - 1) fs NaN)).
  { replace (n - 1)%nat with (i0 + (n - 1 - i0))%nat by lia.
    apply Hup. lia. }
  assert (Hx : forall k, (k < n)%nat -> nonfinite (nth (n - 1 - k) x NaN)).
  { induction k as [|k IH]; intros Hk.
    - now rewrite Nat.sub_0_r, Hlast.
    - specialize (IH ltac:(lia)).
      rewrite (Hback (n - 1 - S k)%nat) by lia.
      replace (n - 1 - S k + 1)%nat with (n - 1 - k)%nat by lia.
      auto with nonfinite. }
  apply Forall_nth. intros i d Hi.
  rewrite (nth_indep x d NaN Hi).
  replace i with (n - 1 - (n - 1 - i))%nat by lia. apply Hx. lia.
Qed.

(** X14: one infinity or NaN in the right-hand side spoils the whole
    result: if some [f[j]] is not finite, no entry of the returned array is
    finite. *)
Theorem tridiag_solve_nonfinite_rhs (n j : nat) (a b c f : list ext) :
  (1 <= n)%nat ->
  length a = n -> length b = n -> length c = n -> length f = n ->
  (j < n)%nat -> nonfinite (nth j f NaN) ->
  exists x,
    tridiag_solve a b c f = Ok x /\ length x = n /\ Forall nonfinite x.
Proof.
  intros Hn La Lb Lc Lf Hj Hnf.
  destruct (tridiag_solve_spec n a b c f Hn La Lb Lc Lf)
    as (fs & qs & x & _ & _ & Hx & _ & _ & Lx).
  destruct (solve_rels NaN n a b c f x Hn La Lb Lc Lf Hx)
    as (fs' & qs' & _ & Hfrel & Hbrel).
  exists x. split; [exact Hx|]. split; [exact Lx|].
  apply (nonfinite_spreads n j a b c f fs' qs' x Hfrel Hbrel Hj).
  destruct Hfrel as (_ & _ & Hf0 & _ & Hrec).
  cbn [div add sub mul neg one Scalar_ext] in *.
  destruct j as [|j].
  - rewrite Hf0. apply nonfinite_div_l. exact Hnf.
  - destruct (Hrec (S j) ltac:(lia)) as [-> _]. cbn zeta.
    apply nonfinite_mul_r. unfold ext_sub. apply nonfinite_add_l. exact Hnf.
Qed.

Lemma tridiag_solve_nonfinite_rhs_witness :
  exists x,
    tridiag_solve [Fin 0; Fin 1] [Fin 2; Fin 2] [Fin 1; Fin 0] [NaN; Fin 3]
    = Ok x
    /\ length x = 2%nat /\ Forall nonfinite x.
Proof.
  apply (tridiag_solve_nonfinite_rhs 2 0);
    try reflexivity; try lia; exact I.
Defined.
